(** * Open-addressing hash map of EDUGUI: [utils/data_structures/hashmap.c]

    A shallow embedding of the C translation unit and the properties of its
    public operations.

    Conventions of the embedding
    - [ui_t] is a 32-bit unsigned integer and [si_t] a 32-bit signed integer
      (the typedefs live in a header that is not part of the unit); values
      are carried as [Z] and every wrap-around is written out with [wrap]
      and [to_si].
    - [addr_t] values are addresses carried as [Z]; [NULL] is [0].
    - A pointer that the code tests against [NULL] or dereferences is an
      [option]; [None] is the null pointer.
    - Undefined behaviour (dereferencing [NULL], indexing outside an array,
      dividing by zero) is the outcome [Fault]; a loop or a recursion that
      exhausts its fuel is the outcome [Timeout].
    - [calloc] and [malloc] may fail; their successive outcomes are read
      from an [allocator] oracle that the allocating operations thread.
    - The thresholds are [f64_t] in C.  They are carried as exact rationals:
      for every 32-bit [data_size] the double products
      [data_size * 0.8] and [data_size * 0.2] truncate and compare exactly
      like the rational products. *)

From Stdlib Require Import ZArith Znumtheory List Lia Bool QArith Qround.
From Stdlib Require Import Strings.Byte.
From stdpp Require Import base list.
Import ListNotations.

Local Open Scope Z_scope.

(** ** Machine integers *)

Definition ui_bits : Z := 32.
Definition ui_modulus : Z := 2 ^ ui_bits.

(** Reduction of an integer to [ui_t]. *)
Definition wrap (z : Z) : Z := z mod ui_modulus.

(** Conversion of a [ui_t] bit pattern to [si_t] (two's complement). *)
Definition to_si (z : Z) : Z :=
  let u := wrap z in
  if u <? 2 ^ (ui_bits - 1) then u else u - ui_modulus.

Definition byte_val (b : byte) : Z := Z.of_N (Byte.to_N b).

(** ** Outcomes and the allocator *)

Inductive result (A : Type) : Type :=
| Ok (a : A)
| Fault
| Timeout.
Arguments Ok {A} a.
Arguments Fault {A}.
Arguments Timeout {A}.

Definition rbind {A B} (r : result A) (k : A -> result B) : result B :=
  match r with
  | Ok a => k a
  | Fault => Fault
  | Timeout => Timeout
  end.

(** Outcomes of the successive allocation requests, [true] for success; an
    exhausted oracle grants every further request. *)
Definition allocator : Type := list bool.

Definition M (A : Type) : Type := allocator -> result (A * allocator).

Definition ret {A} (a : A) : M A := fun al => Ok (a, al).

Definition bind {A B} (m : M A) (k : A -> M B) : M B :=
  fun al => rbind (m al) (fun '(a, al') => k a al').

Definition lift {A} (r : result A) : M A :=
  fun al => rbind r (fun a => Ok (a, al)).

Definition calloc : M bool :=
  fun al => match al with
            | [] => Ok (true, [])
            | ok :: al' => Ok (ok, al')
            end.

Declare Scope hm_scope.
Delimit Scope hm_scope with hm.
Notation "x <- e ;; k" := (bind e (fun x => k))
  (at level 100, e at next level, right associativity) : hm_scope.
Notation "x <~ e ;; k" := (rbind e (fun x => k))
  (at level 100, e at next level, right associativity) : hm_scope.
Local Open Scope hm_scope.

(** ** Data model *)

(** [struct hashmap_key]: a view over the first [size] bytes of the buffer
    that [key] points to. *)
Record hashmap_key : Type := mk_key {
  key : list byte;
  size : Z
}.

(** [struct hashmap_pair]. *)
Record hashmap_pair : Type := mk_pair {
  pkey : hashmap_key;
  value : Z
}.

(** One element of the backing array: a nullable pointer to a pair. *)
Abbreviation slot := (option hashmap_pair).

(** [struct hashmap].  The fields [hash_func] and [probe_func] are only ever
    assigned [hashmap_default_hash_func] and [hashmap_default_probe_func] in
    this unit, so calls through them are direct calls below. *)
Record hashmap : Type := mk_hashmap {
  data_size : Z;
  data_cnt : Z;
  data : option (list slot);
  prime : Z;
  grow_threshold : Q;
  shrink_threshold : Q
}.

Definition HASHMAP_DEFAULT_DATA_SIZE : Z := 4.
Definition HASHMAP_DEFAULT_PRIME : Z := 313.
Definition HASHMAP_DEFAULT_GROW_THRESHOLD : Q := 8 # 10.
Definition HASHMAP_DEFAULT_SHRINK_THRESHOLD : Q := 2 # 10.

Definition set_data (q : hashmap) (d : option (list slot)) : hashmap :=
  mk_hashmap (data_size q) (data_cnt q) d (prime q)
             (grow_threshold q) (shrink_threshold q).

Definition set_data_size (q : hashmap) (n : Z) : hashmap :=
  mk_hashmap n (data_cnt q) (data q) (prime q)
             (grow_threshold q) (shrink_threshold q).

Definition set_data_cnt (q : hashmap) (n : Z) : hashmap :=
  mk_hashmap (data_size q) n (data q) (prime q)
             (grow_threshold q) (shrink_threshold q).

(** [arr[i]] as an rvalue. *)
Definition slot_at (arr : option (list slot)) (i : Z) : result slot :=
  match arr with
  | None => Fault
  | Some l => match l !! Z.to_nat i with
              | Some s => Ok s
              | None => Fault
              end
  end.

(** [q->data[i] = s]; only executed after [q->data[i]] has been read. *)
Definition store_slot (q : hashmap) (i : Z) (s : slot) : hashmap :=
  set_data q (option_map (fun l => <[Z.to_nat i := s]> l) (data q)).

(** ** Keys *)

(** [memcmp]: the difference of the first pair of differing bytes among the
    first [n]; only its sign is specified by the C library. *)
Fixpoint memcmp (s1 s2 : list byte) (n : nat) : Z :=
  match n, s1, s2 with
  | S n', b1 :: t1, b2 :: t2 =>
      if byte_val b1 =? byte_val b2 then memcmp t1 t2 n'
      else byte_val b1 - byte_val b2
  | _, _, _ => 0
  end.

(** [p ? 1 : 0] for a pointer [p]. *)
Definition nonnull {A} (p : option A) : Z :=
  match p with
  | Some _ => 1
  | None => 0
  end.

Definition hashmap_key_cmp (key1 key2 : option hashmap_key) : Z :=
  match key1, key2 with
  | Some k1, Some k2 =>
      if negb (size k1 =? size k2) then to_si (size k1 - size k2)
      else memcmp (key k1) (key k2) (Z.to_nat (size k1))
  | _, _ => nonnull key1 - nonnull key2
  end.

(** ** Default strategies *)

(** The probe loop.  [incri] is an [int] in C and is carried unbounded: it
    is at most the number of misses so far plus one. *)
Fixpoint probe_loop (fuel : nat) (q : hashmap) (src incri : Z)
    (k : option hashmap_key) : result Z :=
  match fuel with
  | O => Timeout
  | S fuel' =>
      s <~ slot_at (data q) src ;;
      match s with
      | None => Ok src
      | Some p =>
          if hashmap_key_cmp (Some (pkey p)) k =? 0 then Ok src
          else probe_loop fuel' q (wrap (src + incri) mod data_size q)
                          (incri + 1) k
      end
  end.

Definition hashmap_default_probe_func (fuel : nat) (q : hashmap) (src : Z)
    (k : option hashmap_key) : result Z :=
  if data_size q =? 0 then Fault
  else probe_loop fuel q (src mod data_size q) 1 k.

Fixpoint hash_loop (res prime : Z) (src : list byte) (key_size : nat) : Z :=
  match key_size, src with
  | S n, b :: src' => hash_loop (wrap (res * prime + byte_val b)) prime src' n
  | _, _ => res
  end.

Definition hashmap_default_hash_func (k : option hashmap_key) (prime : Z)
    : Z :=
  match k with
  | None => 0
  | Some k => hash_loop 0 prime (key k) (Z.to_nat (size k))
  end.

(** ** Construction *)

(** [hashmap_init].  Neither [calloc] result is checked: the stores through
    [q] fault when the first request fails, and a failed second request
    leaves [q->data] null in the handle that is returned. *)
Definition hashmap_init : M (option hashmap) :=
  ok_q <- calloc ;;
  if negb ok_q then lift Fault
  else
    ok_data <- calloc ;;
    ret (Some (mk_hashmap
                 HASHMAP_DEFAULT_DATA_SIZE
                 0
                 (if ok_data
                  then Some (replicate (Z.to_nat HASHMAP_DEFAULT_DATA_SIZE) None)
                  else None)
                 HASHMAP_DEFAULT_PRIME
                 HASHMAP_DEFAULT_GROW_THRESHOLD
                 HASHMAP_DEFAULT_SHRINK_THRESHOLD)).

(** ** Resize and insertion

    [hashmap_insert] calls [hashmap_grow], which calls [hashmap_rehash],
    which calls [hashmap_insert]: the three functions below take the
    insertion to call back as [ins], and [hashmap_insert] ties the knot. *)

(** [(ui_t)(q->data_size * q->grow_threshold)]. *)
Definition grow_limit (q : hashmap) : Z :=
  Qfloor (inject_Z (data_size q) * grow_threshold q).

(** [q->data_cnt < q->data_size * q->shrink_threshold]. *)
Definition below_shrink (q : hashmap) : bool :=
  match (inject_Z (data_cnt q) ?= inject_Z (data_size q) * shrink_threshold q)%Q with
  | Lt => true
  | _ => false
  end.

(** The migration loop of [hashmap_rehash], from index [i] with [n]
    iterations left.  [old[i]->value] is read without testing [old[i]]. *)
Fixpoint rehash_loop (ins : hashmap -> option hashmap_pair -> M (Z * hashmap))
    (old : option (list slot)) (n : nat) (i : Z) (q : hashmap) : M hashmap :=
  match n with
  | O => ret q
  | S n' =>
      s <- lift (slot_at old i) ;;
      match s with
      | None => lift Fault
      | Some p =>
          if negb (value p =? 0) then
            r <- ins q (Some p) ;;
            rehash_loop ins old n' (i + 1) (snd r)
          else rehash_loop ins old n' (i + 1) q
      end
  end.

Definition hashmap_rehash_with
    (ins : hashmap -> option hashmap_pair -> M (Z * hashmap))
    (q : hashmap) (new_size : Z) (old : option (list slot)) (old_size : Z)
    : M (Z * hashmap) :=
  ok <- calloc ;;
  if negb ok then ret (-1, set_data q old)
  else
    let q1 := set_data q (Some (replicate (Z.to_nat new_size) None)) in
    let q2 := set_data_size q1 new_size in
    let q3 := set_data_cnt q2 0 in
    q4 <- rehash_loop ins old (Z.to_nat old_size) 0 q3 ;;
    ret (0, q4).

Definition hashmap_grow_with
    (ins : hashmap -> option hashmap_pair -> M (Z * hashmap))
    (q : hashmap) : M (Z * hashmap) :=
  hashmap_rehash_with ins q (wrap (data_size q * 2)) (data q) (data_size q).

Definition hashmap_shrink_with
    (ins : hashmap -> option hashmap_pair -> M (Z * hashmap))
    (q : hashmap) : M (Z * hashmap) :=
  if data_size q <=? 4 then ret (1, q)
  else hashmap_rehash_with ins q (data_size q / 2) (data q) (data_size q).

(** [hashmap_insert] on a non-null handle whose pointee is [q]; the result
    carries the status and the pointee afterwards.  [fuel] bounds both the
    probe loop and the depth of the recursion through [hashmap_grow]. *)
Fixpoint hashmap_insert (fuel : nat) (q : hashmap) (d : option hashmap_pair)
    {struct fuel} : M (Z * hashmap) :=
  match d with
  | None => ret (-1, q)
  | Some p =>
      match fuel with
      | O => lift Timeout
      | S fuel' =>
          q1 <- (if data_cnt q >=? grow_limit q
                 then r <- hashmap_grow_with (hashmap_insert fuel') q ;;
                      ret (snd r)
                 else ret q) ;;
          let hashval := hashmap_default_hash_func (Some (pkey p)) (prime q1) in
          judge_pos <- lift (hashmap_default_probe_func fuel q1 hashval
                               (Some (pkey p))) ;;
          s <- lift (slot_at (data q1) judge_pos) ;;
          match s with
          | Some _ => ret (1, q1)
          | None =>
              let q2 := store_slot q1 judge_pos (Some p) in
              ret (0, set_data_cnt q2 (wrap (data_cnt q2 + 1)))
          end
      end
  end.

Definition hashmap_rehash (fuel : nat) := hashmap_rehash_with (hashmap_insert fuel).
Definition hashmap_grow (fuel : nat) := hashmap_grow_with (hashmap_insert fuel).
Definition hashmap_shrink (fuel : nat) := hashmap_shrink_with (hashmap_insert fuel).

(** ** Pair and key construction *)

(** [malloc] draws on the same oracle as [calloc]. *)
Definition malloc : M bool := calloc.

(** [hashmap_key_generate]; the store through the [malloc] result is not
    guarded. *)
Definition hashmap_key_generate (buf : list byte) (key_size : Z)
    : M hashmap_key :=
  ok <- malloc ;;
  if negb ok then lift Fault else ret (mk_key buf key_size).

Definition hashmap_pair_generate (buf : list byte) (key_size : Z) (v : Z)
    : M hashmap_pair :=
  ok <- malloc ;;
  if negb ok then lift Fault else ret (mk_pair (mk_key buf key_size) v).

(** ** Lookup and removal *)

(** [hashmap_find]; [free_key] only releases the caller's key structure. *)
Definition hashmap_find (fuel : nat) (q : hashmap) (k : option hashmap_key)
    (free_key : bool) : result Z :=
  match k with
  | None => Ok 0
  | Some _ =>
      let hashval := hashmap_default_hash_func k (prime q) in
      judge_pos <~ hashmap_default_probe_func fuel q hashval k ;;
      s <~ slot_at (data q) judge_pos ;;
      match s with
      | Some p => Ok (value p)
      | None => Ok 0
      end
  end.

Definition hashmap_erase (fuel : nat) (q : hashmap) (k : option hashmap_key)
    (free_key : bool) : M (Z * hashmap) :=
  match k with
  | None => ret (-1, q)
  | Some _ =>
      let hashval := hashmap_default_hash_func k (prime q) in
      judge_pos <- lift (hashmap_default_probe_func fuel q hashval k) ;;
      s <- lift (slot_at (data q) judge_pos) ;;
      match s with
      | Some _ =>
          let q1 := set_data_cnt q (wrap (data_cnt q - 1)) in
          let q2 := store_slot q1 judge_pos None in
          q3 <- (if below_shrink q2
                 then r <- hashmap_shrink fuel q2 ;; ret (snd r)
                 else ret q2) ;;
          ret (0, q3)
      | None => ret (1, q)
      end
  end.

(** ** Teardown *)


(** ** Vocabulary of the properties *)

(** The map in which [hashmap_insert] probes: the one it was given, or the
    one [hashmap_grow] left. *)
Definition grown (fuel : nat) (q : hashmap) (al : allocator)
    (q1 : hashmap) (al1 : allocator) : Prop :=
  if data_cnt q >=? grow_limit q
  then exists r, hashmap_grow fuel q al = Ok (r, q1, al1)
  else q1 = q /\ al1 = al.


(** A key is well formed when its [size] is a [ui_t] and its buffer holds at
    least [size] bytes. *)
Definition key_wf (k : hashmap_key) : Prop :=
  0 <= size k < ui_modulus /\ size k <= Z.of_nat (length (key k)).

(** The bytes a key views. *)
Definition key_bytes (k : hashmap_key) : list byte :=
  take (Z.to_nat (size k)) (key k).

(** Equal length and byte-wise equal content. *)
Definition key_eqv (k1 k2 : hashmap_key) : Prop :=
  size k1 = size k2 /\ key_bytes k1 = key_bytes k2.

(** Lexicographic order on byte strings, bytes compared as [unsigned char]. *)
Fixpoint bytes_lt (s1 s2 : list byte) : Prop :=
  match s1, s2 with
  | b1 :: t1, b2 :: t2 =>
      byte_val b1 < byte_val b2 \/ (byte_val b1 = byte_val b2 /\ bytes_lt t1 t2)
  | [], _ :: _ => True
  | _, [] => False
  end.

(** Order by size first, then by content. *)
Definition key_precedes (k1 k2 : hashmap_key) : Prop :=
  size k1 < size k2 \/
  (size k1 = size k2 /\ bytes_lt (key_bytes k1) (key_bytes k2)).

(** The [j]-th triangular number, and the [j]-th position of the probe
    sequence [start, start+1, start+1+2, ...] in a table of [n] slots. *)
Definition tri (j : Z) : Z := j * (j + 1) / 2.

Definition probe_pos (n start j : Z) : Z := (start mod n + tri j) mod n.

(** The probe loop stops at slot [i]: the slot is empty or holds a key equal
    to [k]. *)
Definition slot_hit (d : list slot) (k : option hashmap_key) (i : Z) : bool :=
  match d !! Z.to_nat i with
  | Some None => true
  | Some (Some p) => hashmap_key_cmp (Some (pkey p)) k =? 0
  | None => false
  end.

(** Powers of two that a [ui_t] can hold. *)
Definition pow2_cap (n : Z) : Prop := exists e, 0 <= e < ui_bits /\ n = 2 ^ e.

(** States reached from [hashmap_init] by calls of [hashmap_insert] and
    [hashmap_erase] that return ([hashmap_find] leaves the map as it is). *)
Inductive reachable : hashmap -> Prop :=
| reach_init al q al' :
    hashmap_init al = Ok (Some q, al') -> reachable q
| reach_insert fuel q d al r q' al' :
    reachable q ->
    hashmap_insert fuel q d al = Ok (r, q', al') -> reachable q'
| reach_erase fuel q k fk al r q' al' :
    reachable q ->
    hashmap_erase fuel q k fk al = Ok (r, q', al') -> reachable q'.

(** States reached from [hashmap_init] by calls of [hashmap_insert] alone. *)
Inductive built : hashmap -> Prop :=
| built_init al q al' :
    hashmap_init al = Ok (Some q, al') -> built q
| built_insert fuel q d al r q' al' :
    built q ->
    hashmap_insert fuel q d al = Ok (r, q', al') -> built q'.

(** The capacity invariant: a power of two, at least four. *)
Definition size_inv (q : hashmap) : Prop :=
  pow2_cap (data_size q) /\ 4 <= data_size q.

(** Every stored key is in the slot at which its own probe stops. *)
Definition locatable (q : hashmap) : Prop :=
  forall d i p,
    data q = Some d -> d !! i = Some (Some p) ->
    exists fuel pos,
      hashmap_default_probe_func fuel q
        (hashmap_default_hash_func (Some (pkey p)) (prime q))
        (Some (pkey p)) = Ok pos /\
      Z.to_nat pos = i.

(** Number of non-null slots. *)
Fixpoint occupied (d : list slot) : Z :=
  match d with
  | [] => 0
  | None :: d' => occupied d'
  | Some _ :: d' => 1 + occupied d'
  end.

(** The invariants the map state is documented to keep. *)
Definition hashmap_valid (q : hashmap) : Prop :=
  exists d,
    data q = Some d /\
    Z.of_nat (length d) = data_size q /\
    size_inv q /\
    data_cnt q = occupied d /\
    forall i j p1 p2,
      d !! i = Some (Some p1) -> d !! j = Some (Some p2) ->
      key_eqv (pkey p1) (pkey p2) -> i = j.

(** The bookkeeping of a map: the strategy parameters are the defaults, the
    capacity is a [ui_t], and a non-null array has [data_size] slots of
    which [data_cnt] are non-null. *)
Definition well_counted (q : hashmap) : Prop :=
  prime q = HASHMAP_DEFAULT_PRIME /\
  grow_threshold q = HASHMAP_DEFAULT_GROW_THRESHOLD /\
  shrink_threshold q = HASHMAP_DEFAULT_SHRINK_THRESHOLD /\
  0 <= data_size q < ui_modulus /\
  forall d, data q = Some d ->
            Z.of_nat (length d) = data_size q /\ data_cnt q = occupied d.

(** The state of a migration into [new_size] slots after the first [j] slots
    of [old] have been handled: the new table holds exactly the pairs with
    a non-null value among them, each where its own probe stops. *)
Definition migration_inv (old : list slot) (new_size : Z) (q0 : hashmap)
    (j : nat) (q : hashmap) : Prop :=
  exists d,
    data q = Some d /\
    Z.of_nat (length d) = new_size /\
    data_size q = new_size /\
    prime q = prime q0 /\
    grow_threshold q = grow_threshold q0 /\
    data_cnt q = occupied d /\
    occupied d <= Z.of_nat j /\
    locatable q /\
    (forall i p, d !! i = Some (Some p) ->
                 exists i0, (i0 < j)%nat /\ old !! i0 = Some (Some p)) /\
    (forall i0 p, (i0 < j)%nat -> old !! i0 = Some (Some p) -> value p <> 0 ->
                  exists i, d !! i = Some (Some p)).

(** ** Scenario data *)

Definition key_a : hashmap_key := mk_key [x61] 1.
Definition key_b : hashmap_key := mk_key [x62] 1.
Definition key_c : hashmap_key := mk_key [x63] 1.
Definition key_d : hashmap_key := mk_key [x64] 1.
Definition key_e : hashmap_key := mk_key [x65] 1.

(** The map [hashmap_init] returns when both allocations succeed. *)
Definition fresh : hashmap :=
  mk_hashmap 4 0 (Some [None; None; None; None]) 313 (8 # 10) (2 # 10).

Definition pair_a : hashmap_pair := mk_pair key_a 1.
Definition pair_b : hashmap_pair := mk_pair key_b 2.
Definition pair_c : hashmap_pair := mk_pair key_c 3.
Definition pair_d : hashmap_pair := mk_pair key_d 4.
Definition pair_e : hashmap_pair := mk_pair key_e 5.

(** A second view of the byte ["a"], through a longer buffer. *)
Definition key_a_view : hashmap_key := mk_key [x61; x7a] 1.

(** The states the scenarios pass through. *)
Definition table4 (cnt : Z) (d : list slot) : hashmap :=
  mk_hashmap 4 cnt (Some d) 313 (8 # 10) (2 # 10).

Definition table8 (cnt : Z) (d : list slot) : hashmap :=
  mk_hashmap 8 cnt (Some d) 313 (8 # 10) (2 # 10).

Definition after_a : hashmap := table4 1 [None; Some pair_a; None; None].
Definition after_ab : hashmap :=
  table4 2 [None; Some pair_a; Some pair_b; None].
Definition after_abc : hashmap :=
  table4 3 [None; Some pair_a; Some pair_b; Some pair_c].

(** Four pairs in four slots: reached when the allocation of the fourth
    insertion's grow fails. *)
Definition full4 : hashmap :=
  table4 4 [Some pair_d; Some pair_a; Some pair_b; Some pair_c].

(** [full4] after a further insertion of a pair with key ["a"]. *)
Definition full4_grown : hashmap :=
  table8 4 [None; Some pair_a; Some pair_b; Some pair_c; Some pair_d;
            None; None; None].

(** [full4] after the insertion of ["e"]. *)
Definition after_abcde : hashmap :=
  table8 5 [None; Some pair_a; Some pair_b; Some pair_c; Some pair_d;
            Some pair_e; None; None].

(** ["a"] and ["e"] hash to the same slot of a four-slot table. *)
Definition after_ae : hashmap :=
  table4 2 [None; Some pair_a; Some pair_e; None].
Definition after_ae_erased_a : hashmap :=
  table4 1 [None; None; Some pair_e; None].

(** An eight-slot table left with ["d"] and ["e"]. *)
Definition table_de : hashmap :=
  table8 2 [None; None; None; None; Some pair_d; Some pair_e; None; None].

(** The handle [hashmap_init] returns when only its second allocation fails. *)
Definition half_built : hashmap :=
  mk_hashmap 4 0 None 313 (8 # 10) (2 # 10).

(** An empty key and a key of [2^31 + 1] bytes. *)
Definition key_empty : hashmap_key := mk_key [] 0.
Definition key_huge : hashmap_key :=
  mk_key (replicate (Z.to_nat 2147483649) x00) 2147483649.

(** Successive insertions, stopping at the first call that does not return;
    the statuses are collected in order. *)
Fixpoint insert_all (fuel : nat) (ps : list hashmap_pair) (q : hashmap)
    : M (list Z * hashmap) :=
  match ps with
  | [] => ret ([], q)
  | p :: ps' =>
      r <- hashmap_insert fuel q (Some p) ;;
      rs <- insert_all fuel ps' (snd r) ;;
      ret (fst r :: fst rs, snd rs)
  end.

(** ** Two statements as the specification words them *)

(** Inserting ["a"] to ["e"] with values 1 to 5 into a fresh map: capacity 4
    through the first four insertions, capacity 8 after the fifth, and all
    five keys found with their values. *)
Definition five_inserts_as_specified : Prop :=
  exists fuel q4 al4 q5 al5,
    insert_all fuel [pair_a; pair_b; pair_c; pair_d] fresh []
      = Ok ([0; 0; 0; 0], q4, al4) /\
    data_size q4 = 4 /\
    hashmap_insert fuel q4 (Some pair_e) al4 = Ok (0, q5, al5) /\
    data_size q5 = 8 /\
    Forall (fun p => hashmap_find fuel q5 (Some (pkey p)) false = Ok (value p))
           [pair_a; pair_b; pair_c; pair_d; pair_e].

(** Inserting a key that a valid map already holds returns 1 and changes
    nothing. *)
Definition duplicate_leaves_any_valid_map : Prop :=
  forall q d i p0 k v fuel al r q' al',
    hashmap_valid q ->
    data q = Some d -> d !! i = Some (Some p0) -> key_eqv (pkey p0) k ->
    hashmap_insert fuel q (Some (mk_pair k v)) al = Ok (r, q', al') ->
    r = 1 /\ q' = q.

(** * Properties *)

(** ** Machine integers *)

Lemma ui_modulus_eq : ui_modulus = 4294967296.
Proof. reflexivity. Qed.

Lemma wrap_range z : 0 <= wrap z < ui_modulus.
Proof. unfold wrap. apply Z.mod_pos_bound. rewrite ui_modulus_eq. lia. Qed.

Lemma wrap_small z : 0 <= z < ui_modulus -> wrap z = z.
Proof. intros H. unfold wrap. now apply Z.mod_small. Qed.

Lemma to_si_small z :
  - 2 ^ 31 <= z < 2 ^ 31 -> to_si z = z.
Proof.
  intros H. unfold to_si, wrap, ui_bits. rewrite ui_modulus_eq.
  change (2 ^ (32 - 1)) with 2147483648. change (2 ^ 31) with 2147483648 in H.
  destruct (Z_lt_le_dec z 0) as [Hn|Hp].
  - replace (z mod 4294967296) with (z + 4294967296).
    + destruct (Z.ltb_spec (z + 4294967296) 2147483648); lia.
    + apply (Z.mod_unique_pos _ _ (-1)); lia.
  - rewrite Z.mod_small by lia.
    destruct (Z.ltb_spec z 2147483648); lia.
Qed.

Lemma to_si_zero_iff a b :
  0 <= a < ui_modulus -> 0 <= b < ui_modulus ->
  to_si (a - b) = 0 <-> a = b.
Proof.
  rewrite ui_modulus_eq. intros Ha Hb. unfold to_si, wrap, ui_bits.
  rewrite ui_modulus_eq. change (2 ^ (32 - 1)) with 2147483648.
  pose proof (Z.mod_pos_bound (a - b) 4294967296 ltac:(lia)) as Hm.
  split.
  - intros H.
    assert ((a - b) mod 4294967296 = 0) as H0
      by (destruct (Z.ltb_spec ((a - b) mod 4294967296) 2147483648); lia).
    apply Z.mod_divide in H0; [|lia]. destruct H0 as [c Hc]. nia.
  - intros ->. rewrite Z.sub_diag. reflexivity.
Qed.

(** ** Key comparison *)

Lemma byte_val_inj b1 b2 : byte_val b1 = byte_val b2 -> b1 = b2.
Proof.
  unfold byte_val. intros H. apply N2Z.inj in H.
  assert (Some b1 = Some b2) as E by (rewrite <- !Byte.of_to_N; now rewrite H).
  now inversion E.
Qed.

Lemma memcmp_zero_iff s1 s2 n :
  (n <= length s1)%nat -> (n <= length s2)%nat ->
  memcmp s1 s2 n = 0 <-> take n s1 = take n s2.
Proof.
  revert s1 s2. induction n as [|n IH]; intros [|b1 t1] [|b2 t2] H1 H2;
    simpl in *; try lia; try tauto.
  destruct (Z.eqb_spec (byte_val b1) (byte_val b2)) as [E|E].
  - apply byte_val_inj in E. subst b2. rewrite IH by lia.
    split; [intros ->; reflexivity | intros H; now inversion H].
  - split; [lia | intros H; inversion H; subst; congruence].
Qed.

Lemma memcmp_neg_iff s1 s2 n :
  (n <= length s1)%nat -> (n <= length s2)%nat ->
  memcmp s1 s2 n < 0 <-> bytes_lt (take n s1) (take n s2).
Proof.
  revert s1 s2. induction n as [|n IH]; intros [|b1 t1] [|b2 t2] H1 H2;
    simpl in *; try lia; try tauto.
  destruct (Z.eqb_spec (byte_val b1) (byte_val b2)) as [E|E].
  - rewrite IH by lia.
    split; [intros H; right; auto | intros [H|[_ H]]; [lia | auto]].
  - split; [intros H; left; lia | intros [H|[H _]]; lia].
Qed.

(** The comparison reads no more of its second argument than the first
    [size] bytes, so equivalent keys compare alike. *)
Lemma memcmp_take_r s1 s2 n : memcmp s1 (take n s2) n = memcmp s1 s2 n.
Proof.
  revert s1 s2. induction n as [|n IH]; intros [|b1 t1] [|b2 t2];
    simpl; try reflexivity.
  now rewrite IH.
Qed.

Lemma key_wf_len k : key_wf k -> (Z.to_nat (size k) <= length (key k))%nat.
Proof. intros [H1 H2]. lia. Qed.

(** The equality half of the comparison contract. *)
Lemma hashmap_key_cmp_zero_iff k1 k2 :
  key_wf k1 -> key_wf k2 ->
  hashmap_key_cmp (Some k1) (Some k2) = 0 <-> key_eqv k1 k2.
Proof.
  intros W1 W2. unfold hashmap_key_cmp, key_eqv, key_bytes.
  destruct (Z.eqb_spec (size k1) (size k2)) as [E|E]; simpl.
  - rewrite memcmp_zero_iff.
    + rewrite E. tauto.
    + now apply key_wf_len.
    + rewrite E. now apply key_wf_len.
  - rewrite to_si_zero_iff by apply W1 || apply W2. tauto.
Qed.

(** The sign orders keys by size and then by content as long as the sizes
    are closer than [2^31]. *)
Lemma hashmap_key_cmp_neg_iff k1 k2 :
  key_wf k1 -> key_wf k2 ->
  - 2 ^ 31 <= size k1 - size k2 < 2 ^ 31 ->
  hashmap_key_cmp (Some k1) (Some k2) < 0 <-> key_precedes k1 k2.
Proof.
  intros W1 W2 Hd. unfold hashmap_key_cmp, key_precedes, key_bytes.
  destruct (Z.eqb_spec (size k1) (size k2)) as [E|E]; simpl.
  - rewrite memcmp_neg_iff.
    + rewrite E. intuition lia.
    + now apply key_wf_len.
    + rewrite E. now apply key_wf_len.
  - rewrite to_si_small by exact Hd. intuition lia.
Qed.

Lemma hashmap_key_cmp_eqv_r k k1 k2 :
  key_eqv k1 k2 ->
  hashmap_key_cmp (Some k) (Some k1) = hashmap_key_cmp (Some k) (Some k2).
Proof.
  intros [Es Eb]. unfold hashmap_key_cmp. rewrite <- Es.
  destruct (size k =? size k1) eqn:E; simpl; [|reflexivity].
  apply Z.eqb_eq in E. unfold key_bytes in Eb. rewrite <- Es, <- E in Eb.
  rewrite <- (memcmp_take_r _ (key k1)), <- (memcmp_take_r _ (key k2)).
  now rewrite Eb.
Qed.

Lemma hashmap_key_cmp_refl k : key_wf k -> hashmap_key_cmp (Some k) (Some k) = 0.
Proof. intros W. apply hashmap_key_cmp_zero_iff; [assumption..|]. now split. Qed.

(** ** The probe sequence

    The positions [start + 0, start + 1, start + 1 + 2, ...] are the
    triangular numbers shifted by [start]; modulo a power of two they are
    pairwise distinct over one period. *)

Lemma tri_double j : 2 * tri j = j * (j + 1).
Proof.
  unfold tri.
  assert ((j * (j + 1)) mod 2 = 0) as H.
  { rewrite Z.mul_mod by lia.
    pose proof (Z.mod_pos_bound j 2 ltac:(lia)).
    assert (j mod 2 = 0 \/ j mod 2 = 1) as [E|E] by lia.
    - rewrite E. reflexivity.
    - rewrite <- Zplus_mod_idemp_l, E. reflexivity. }
  pose proof (Z.div_mod (j * (j + 1)) 2 ltac:(lia)). lia.
Qed.

Lemma tri_succ j : tri (j + 1) = tri j + j + 1.
Proof. pose proof (tri_double j). pose proof (tri_double (j + 1)). nia. Qed.

Lemma tri_0 : tri 0 = 0.
Proof. reflexivity. Qed.

Lemma odd_coprime_pow2 a e : 0 <= e -> a mod 2 = 1 -> Z.gcd (2 ^ e) a = 1.
Proof.
  intros He Ha. rewrite Z.gcd_comm. apply Z.coprime_pow_r; [assumption|].
  apply Z.coprime_Bezout. exists 1, (- (a / 2)).
  pose proof (Z.div_mod a 2 ltac:(lia)). lia.
Qed.

Lemma tri_inj_mod e i j :
  0 <= e -> 0 <= i < j -> j < 2 ^ e ->
  tri i mod 2 ^ e <> tri j mod 2 ^ e.
Proof.
  intros He Hij Hj Heq.
  assert (0 < 2 ^ e) as Hpos by (apply Z.pow_pos_nonneg; lia).
  assert ((2 ^ e | tri j - tri i)) as Hd.
  { apply Z.mod_divide; [lia|]. rewrite Zminus_mod, Heq, Z.sub_diag. apply Z.mod_0_l. lia. }
  assert ((2 ^ (e + 1) | (j - i) * (j + i + 1))) as Hd2.
  { destruct Hd as [c Hc]. exists c.
    rewrite Z.pow_add_r by lia. change (2 ^ 1) with 2.
    pose proof (tri_double i). pose proof (tri_double j). nia. }
  assert (2 ^ (e + 1) = 2 * 2 ^ e) as Hp by (rewrite Z.pow_add_r by lia; change (2 ^ 1) with 2; lia).
  pose proof (Z.mod_pos_bound (j - i) 2 ltac:(lia)) as Hm.
  assert ((j - i) mod 2 = 1 \/ (j - i) mod 2 = 0) as [Ho|Hev] by lia.
  - (* j - i odd *)
    assert ((2 ^ (e + 1) | j + i + 1)) as [c Hc].
    { apply Z.gauss with (m := j - i); [assumption|].
      apply odd_coprime_pow2; [lia|assumption]. }
    assert (c <= 0 \/ 1 <= c) as [Hc0|Hc1] by lia; nia.
  - (* j + i + 1 odd *)
    assert ((j + i + 1) mod 2 = 1) as Ho.
    { replace (j + i + 1) with ((j - i) + (2 * i + 1)) by lia.
      rewrite Z.add_mod, Hev by lia.
      replace (2 * i + 1) with (1 + i * 2) by lia. rewrite Z.mod_add by lia. reflexivity. }
    assert ((2 ^ (e + 1) | j - i)) as [c Hc].
    { apply Z.gauss with (m := j + i + 1); [now rewrite Z.mul_comm|].
      apply odd_coprime_pow2; [lia|assumption]. }
    assert (c <= 0 \/ 1 <= c) as [Hc0|Hc1] by lia; nia.
Qed.

Lemma mod_eq_divide a b n : 0 < n -> a mod n = b mod n <-> (n | a - b).
Proof.
  intros Hn. split.
  - intros H. apply Z.mod_divide; [lia|].
    rewrite Zminus_mod, H, Z.sub_diag. apply Z.mod_0_l. lia.
  - intros [c Hc]. replace a with (b + c * n) by lia. apply Z.mod_add. lia.
Qed.

Lemma pow2_pos e : 0 <= e -> 0 < 2 ^ e.
Proof. intros. apply Z.pow_pos_nonneg; lia. Qed.

Lemma probe_pos_range n s j : 0 < n -> 0 <= probe_pos n s j < n.
Proof. intros. unfold probe_pos. now apply Z.mod_pos_bound. Qed.

Lemma probe_pos_inj e s i j :
  0 <= e -> 0 <= i < 2 ^ e -> 0 <= j < 2 ^ e ->
  probe_pos (2 ^ e) s i = probe_pos (2 ^ e) s j -> i = j.
Proof.
  intros He Hi Hj Heq. pose proof (pow2_pos e He) as Hpos.
  unfold probe_pos in Heq. apply mod_eq_divide in Heq; [|assumption].
  destruct (Z.lt_trichotomy i j) as [Hlt|[E|Hgt]]; [|assumption|]; exfalso.
  - apply (tri_inj_mod e i j); [lia..|].
    apply mod_eq_divide; [assumption|].
    destruct Heq as [c Hc]. exists c. lia.
  - apply (tri_inj_mod e j i); [lia..|].
    apply mod_eq_divide; [assumption|].
    destruct Heq as [c Hc]. exists (- c). lia.
Qed.

(** Every slot is visited within the first [2^e] probes. *)
Lemma probe_pos_surj e s t :
  0 <= e -> 0 <= t < 2 ^ e ->
  exists j, 0 <= j < 2 ^ e /\ probe_pos (2 ^ e) s j = t.
Proof.
  intros He Ht. pose proof (pow2_pos e He) as Hpos.
  set (l := probe_pos (2 ^ e) s <$> seqZ 0 (2 ^ e)).
  assert (NoDup l) as Hnd.
  { apply NoDup_fmap_2_strong; [|apply NoDup_seqZ].
    intros x y Hx%elem_of_seqZ Hy%elem_of_seqZ. apply probe_pos_inj; lia. }
  assert (l ⊆+ seqZ 0 (2 ^ e)) as Hsub.
  { apply NoDup_submseteq; [assumption|].
    intros x (j & -> & Hj)%list_elem_of_fmap. apply elem_of_seqZ.
    pose proof (probe_pos_range (2 ^ e) s j Hpos). lia. }
  apply submseteq_length_Permutation in Hsub;
    [|unfold l; now rewrite length_fmap].
  assert (t ∈ l) as (j & Hj & Hin%elem_of_seqZ)%list_elem_of_fmap
    by (rewrite Hsub; apply elem_of_seqZ; lia).
  exists j. split; [lia|now symmetry].
Qed.

Lemma probe_pos_0 n s : 0 < n -> probe_pos n s 0 = s mod n.
Proof.
  intros Hn. unfold probe_pos. rewrite tri_0, Z.add_0_r. now apply Z.mod_mod; lia.
Qed.

(** One miss moves the loop from the [j]-th to the [j+1]-th position. *)
Lemma probe_pos_step e s j :
  0 <= e < ui_bits -> 0 <= j ->
  wrap (probe_pos (2 ^ e) s j + (j + 1)) mod 2 ^ e = probe_pos (2 ^ e) s (j + 1).
Proof.
  intros He Hj. pose proof (pow2_pos e ltac:(lia)) as Hpos.
  unfold wrap, ui_modulus.
  rewrite Z.mod_mod_divide.
  - unfold probe_pos. rewrite tri_succ, Zplus_mod_idemp_l. f_equal. lia.
  - exists (2 ^ (ui_bits - e)). rewrite <- Z.pow_add_r by lia. f_equal. lia.
Qed.

(** *** The probe loop *)

Lemma slot_at_hit q d k i :
  data q = Some d -> slot_hit d k i = true ->
  forall fuel incri, probe_loop (S fuel) q i incri k = Ok i.
Proof.
  intros Hd Hh fuel incri. cbn [probe_loop]. unfold slot_at, slot_hit in *.
  rewrite Hd.
  destruct (d !! Z.to_nat i) as [[p|]|]; cbn [rbind];
    try reflexivity; try discriminate.
  now rewrite Hh.
Qed.

Lemma slot_at_miss q d k i :
  data q = Some d -> (Z.to_nat i < length d)%nat -> slot_hit d k i = false ->
  forall fuel incri,
    probe_loop (S fuel) q i incri k =
    probe_loop fuel q (wrap (i + incri) mod data_size q) (incri + 1) k.
Proof.
  intros Hd Hr Hh fuel incri. cbn [probe_loop]. unfold slot_at, slot_hit in *.
  rewrite Hd.
  destruct (d !! Z.to_nat i) as [[p|]|] eqn:E; cbn [rbind]; try discriminate.
  - now rewrite Hh.
  - exfalso. apply lookup_ge_None in E. lia.
Qed.

Lemma probe_loop_run q d k e s :
  data q = Some d -> data_size q = 2 ^ e -> 0 <= e < ui_bits ->
  Z.of_nat (length d) = data_size q ->
  forall (m : nat) j fuel,
    0 <= j ->
    (forall j', j <= j' < j + Z.of_nat m ->
                slot_hit d k (probe_pos (2 ^ e) s j') = false) ->
    slot_hit d k (probe_pos (2 ^ e) s (j + Z.of_nat m)) = true ->
    (m < fuel)%nat ->
    probe_loop fuel q (probe_pos (2 ^ e) s j) (j + 1) k
    = Ok (probe_pos (2 ^ e) s (j + Z.of_nat m)).
Proof.
  intros Hd Hn He Hlen. pose proof (pow2_pos e ltac:(lia)) as Hpos.
  induction m as [|m IH]; intros j fuel Hj Hmiss Hhit Hfuel;
    (destruct fuel as [|fuel]; [lia|]).
  - rewrite Z.add_0_r in *. now apply (slot_at_hit q d).
  - rewrite (slot_at_miss q d).
    + rewrite Hn, probe_pos_step by lia.
      replace (j + Z.of_nat (S m)) with (j + 1 + Z.of_nat m) in * by lia.
      apply IH; [lia| |assumption|lia].
      intros j' Hj'. apply Hmiss. lia.
    + assumption.
    + pose proof (probe_pos_range (2 ^ e) s j Hpos). lia.
    + apply Hmiss. lia.
Qed.

(** The least index at which a decidable property holds. *)
Lemma least_true_or_none (P : Z -> bool) (b : nat) :
  (exists m, 0 <= m < Z.of_nat b /\ P m = true /\
             forall j, 0 <= j < m -> P j = false) \/
  (forall j, 0 <= j < Z.of_nat b -> P j = false).
Proof.
  induction b as [|b [(m & Hm & Hm1 & Hm2)|Hno]].
  - right. intros j Hj. lia.
  - left. exists m. repeat split; try lia; auto.
  - destruct (P (Z.of_nat b)) eqn:E.
    + left. exists (Z.of_nat b). repeat split; try lia; auto.
    + right. intros j Hj.
      destruct (decide (j = Z.of_nat b)) as [->|Hne]; [assumption|].
      apply Hno. lia.
Qed.

Lemma least_true (P : Z -> bool) (i : Z) :
  0 <= i -> P i = true ->
  exists m, 0 <= m <= i /\ P m = true /\ forall j, 0 <= j < m -> P j = false.
Proof.
  intros Hi HP.
  destruct (least_true_or_none P (S (Z.to_nat i))) as [(m & Hm & Hm1 & Hm2)|Hno].
  - exists m. repeat split; try lia; auto.
  - rewrite Hno in HP by lia. discriminate.
Qed.

(** Claim C7.  In a table whose capacity is a power of two and that has at
    least one slot that is empty or holds a key equal to the probed key, the
    default probe function returns (given fuel for its misses) the first
    such slot of the sequence [start, start+1, start+1+2, ...] taken modulo
    the capacity, after fewer misses than there are slots; and that
    sequence visits every slot within as many probes as there are slots. *)
Theorem default_probe_reaches_first_hit q d k e start :
  data q = Some d -> data_size q = 2 ^ e -> 0 <= e < ui_bits ->
  Z.of_nat (length d) = data_size q ->
  (exists i, 0 <= i < data_size q /\ slot_hit d k i = true) ->
  (exists m, 0 <= m < data_size q /\
     (forall fuel, (Z.to_nat m < fuel)%nat ->
        hashmap_default_probe_func fuel q start k
        = Ok (probe_pos (data_size q) start m)) /\
     slot_hit d k (probe_pos (data_size q) start m) = true /\
     (forall j, 0 <= j < m ->
        slot_hit d k (probe_pos (data_size q) start j) = false)) /\
  (forall t, 0 <= t < data_size q ->
     exists j, 0 <= j < data_size q /\ probe_pos (data_size q) start j = t).
Proof.
  intros Hd Hn He Hlen (i & Hi & Hhit). pose proof (pow2_pos e ltac:(lia)) as Hpos.
  rewrite Hn in *. split.
  - destruct (probe_pos_surj e start i ltac:(lia) Hi) as (j0 & Hj0 & Ej0).
    destruct (least_true (fun j => slot_hit d k (probe_pos (2 ^ e) start j)) j0)
      as (m & Hm & Hm1 & Hm2); [lia|now rewrite Ej0|].
    exists m. repeat split; try lia; auto.
    intros fuel Hfuel. unfold hashmap_default_probe_func.
    rewrite Hn. destruct (Z.eqb_spec (2 ^ e) 0) as [E0|_]; [lia|].
    rewrite <- (probe_pos_0 (2 ^ e) start Hpos).
    pose proof (probe_loop_run q d k e start Hd Hn He ltac:(lia)
                  (Z.to_nat m) 0 fuel) as Hrun.
    rewrite Z.add_0_l, Z2Nat.id in Hrun by lia. apply Hrun; try lia; auto.
  - intros t Ht. apply probe_pos_surj; lia.
Qed.

(** ** The outcome monad *)

Lemma rbind_Ok {A B} (r : result A) (k : A -> result B) b :
  rbind r k = Ok b -> exists a, r = Ok a /\ k a = Ok b.
Proof. destruct r; simpl; intros H; try discriminate. eauto. Qed.

Lemma bind_Ok {A B} (m : M A) (k : A -> M B) al b al' :
  bind m k al = Ok (b, al') ->
  exists a al1, m al = Ok (a, al1) /\ k a al1 = Ok (b, al').
Proof.
  unfold bind. intros ([a al1] & H1 & H2)%rbind_Ok. eauto.
Qed.

Lemma lift_Ok {A} (r : result A) al a al' :
  lift r al = Ok (a, al') -> r = Ok a /\ al' = al.
Proof.
  unfold lift. intros (a0 & H1 & H2)%rbind_Ok. inversion H2; subst. auto.
Qed.

Lemma ret_Ok {A} (a : A) al b al' : ret a al = Ok (b, al') -> b = a /\ al' = al.
Proof. unfold ret. intros H. inversion H; auto. Qed.

(** ** Hashing and comparing equivalent keys *)

Lemma hash_loop_take res prime src n :
  hash_loop res prime (take n src) n = hash_loop res prime src n.
Proof.
  revert res src. induction n as [|n IH]; intros res [|b src]; simpl; auto.
Qed.

Lemma hashmap_default_hash_func_eqv k1 k2 prime :
  key_eqv k1 k2 ->
  hashmap_default_hash_func (Some k1) prime
  = hashmap_default_hash_func (Some k2) prime.
Proof.
  intros [Es Eb]. unfold hashmap_default_hash_func, key_bytes in *.
  rewrite <- (hash_loop_take _ _ (key k1)), <- (hash_loop_take _ _ (key k2)).
  now rewrite Eb, Es.
Qed.

Lemma memcmp_take_l s1 s2 n : memcmp (take n s1) s2 n = memcmp s1 s2 n.
Proof.
  revert s1 s2. induction n as [|n IH]; intros [|b1 t1] [|b2 t2];
    simpl; try reflexivity.
  now rewrite IH.
Qed.

Lemma memcmp_diag s n : memcmp s s n = 0.
Proof.
  revert s. induction n as [|n IH]; intros [|b t]; simpl; try reflexivity.
  now rewrite Z.eqb_refl.
Qed.

Lemma hashmap_key_cmp_eqv k1 k2 :
  key_eqv k1 k2 -> hashmap_key_cmp (Some k1) (Some k2) = 0.
Proof.
  intros [Es Eb]. unfold hashmap_key_cmp, key_bytes in *.
  rewrite Es, Z.eqb_refl. simpl. rewrite <- Es in Eb.
  rewrite <- Es, <- memcmp_take_l, <- memcmp_take_r, Eb. apply memcmp_diag.
Qed.

(** ** Storing into the slot a probe stopped at *)

Section store.
Variables (q q' : hashmap) (d : list slot) (pos : Z) (s : slot).
Hypothesis Hd : data q = Some d.
Hypothesis Hempty : d !! Z.to_nat pos = Some None.
Hypothesis Hd' : data q' = Some (<[Z.to_nat pos := s]> d).
Hypothesis Hsize : data_size q' = data_size q.

(** A probe that stops elsewhere is not affected. *)
Lemma probe_loop_store_other k fuel : forall src incri i,
  probe_loop fuel q src incri k = Ok i ->
  Z.to_nat i <> Z.to_nat pos ->
  probe_loop fuel q' src incri k = Ok i.
Proof.
  induction fuel as [|fuel IH]; intros src incri i; [discriminate|].
  cbn [probe_loop]. unfold slot_at. rewrite Hd, Hd', Hsize.
  destruct (d !! Z.to_nat src) as [[p0|]|] eqn:E; cbn [rbind];
    try discriminate.
  - assert (Z.to_nat pos <> Z.to_nat src) as Hne by congruence.
    rewrite list_lookup_insert_ne, E by assumption. cbn [rbind].
    destruct (hashmap_key_cmp (Some (pkey p0)) k =? 0); [auto|].
    apply IH.
  - intros [= <-] Hne.
    rewrite list_lookup_insert_ne, E by congruence. reflexivity.
Qed.

(** A probe that stops at the slot finds the stored key there. *)
Lemma probe_loop_store_hit p k k' fuel : forall src incri,
  s = Some p -> pkey p = k -> key_eqv k k' ->
  probe_loop fuel q src incri (Some k) = Ok pos ->
  probe_loop fuel q' src incri (Some k') = Ok pos.
Proof.
  intros src incri -> Hk Heqv. revert src incri.
  induction fuel as [|fuel IH]; intros src incri; [discriminate|].
  cbn [probe_loop]. unfold slot_at. rewrite Hd, Hd', Hsize.
  destruct (d !! Z.to_nat src) as [[p0|]|] eqn:E; cbn [rbind];
    try discriminate.
  - assert (Z.to_nat pos <> Z.to_nat src) as Hne by congruence.
    rewrite list_lookup_insert_ne, E by assumption. cbn [rbind].
    rewrite <- (hashmap_key_cmp_eqv_r _ k k' Heqv).
    destruct (hashmap_key_cmp (Some (pkey p0)) (Some k) =? 0) eqn:Ec.
    + intros [= ->]. congruence.
    + apply IH.
  - intros [= ->].
    rewrite list_lookup_insert_eq by (apply lookup_lt_Some in E; assumption).
    cbn [rbind]. rewrite Hk, (hashmap_key_cmp_eqv k k' Heqv). reflexivity.
Qed.
End store.

(** ** Insertion *)

Lemma hashmap_insert_Ok fuel q p al r q' al' :
  hashmap_insert fuel q (Some p) al = Ok (r, q', al') ->
  exists fuel' q1 pos,
    fuel = S fuel' /\
    grown fuel' q al q1 al' /\
    hashmap_default_probe_func fuel q1
      (hashmap_default_hash_func (Some (pkey p)) (prime q1))
      (Some (pkey p)) = Ok pos /\
    ((exists p0, slot_at (data q1) pos = Ok (Some p0) /\ r = 1 /\ q' = q1) \/
     (slot_at (data q1) pos = Ok None /\ r = 0 /\
      q' = set_data_cnt (store_slot q1 pos (Some p)) (wrap (data_cnt q1 + 1)))).
Proof.
  destruct fuel as [|fuel]; [discriminate|].
  cbn [hashmap_insert].
  intros (q1 & al1 & Hg & H)%bind_Ok.
  apply bind_Ok in H as (pos & al2 & [Hp ->]%lift_Ok & H).
  apply bind_Ok in H as (s & al3 & [Hs ->]%lift_Ok & H).
  exists fuel, q1, pos. split; [reflexivity|].
  assert (grown fuel q al q1 al1) as Hgrown.
  { unfold grown. destruct (data_cnt q >=? grow_limit q).
    - apply bind_Ok in Hg as ([r0 q0] & al0 & Hg & [-> ->]%ret_Ok).
      exists r0. exact Hg.
    - now apply ret_Ok in Hg. }
  destruct s as [p0|]; apply ret_Ok in H as [[= -> ->] ->].
  - split; [assumption|]. split; [assumption|]. left. eauto.
  - split; [assumption|]. split; [assumption|]. right. auto.
Qed.

(** Claim C3.  When [hashmap_insert] of a pair with key [k] and non-null
    value [v] returns success, [hashmap_find] with any key of equal length
    and byte-wise equal content returns [v] on the map it left. *)
Theorem hashmap_find_after_insert fuel q k v k' fk al q' al' :
  v <> 0 -> key_eqv k k' ->
  hashmap_insert fuel q (Some (mk_pair k v)) al = Ok (0, q', al') ->
  hashmap_find fuel q' (Some k') fk = Ok v.
Proof.
  intros _ Heqv (fuel' & q1 & pos & -> & _ & Hp & [(p0 & _ & [=] & _)|(Hs & _ & ->)])%hashmap_insert_Ok.
  cbn [pkey] in Hp.
  unfold slot_at in Hs. destruct (data q1) as [d|] eqn:Hd; [|discriminate].
  destruct (d !! Z.to_nat pos) as [[?|]|] eqn:E; try discriminate.
  set (q' := set_data_cnt _ _).
  assert (data q' = Some (<[Z.to_nat pos := Some (mk_pair k v)]> d)) as Hd'
    by (unfold q', store_slot; cbn; now rewrite Hd).
  unfold hashmap_find.
  replace (prime q') with (prime q1) by reflexivity.
  rewrite <- (hashmap_default_hash_func_eqv k k' _ Heqv).
  unfold hashmap_default_probe_func in *.
  replace (data_size q') with (data_size q1) by reflexivity.
  destruct (data_size q1 =? 0); [discriminate|].
  rewrite (probe_loop_store_hit q1 q' d pos _ Hd E Hd' eq_refl _ k k' _ _ _
             eq_refl eq_refl Heqv Hp).
  cbn [rbind]. unfold slot_at. rewrite Hd'.
  rewrite list_lookup_insert_eq by (apply lookup_lt_Some in E; assumption).
  reflexivity.
Qed.

(** ** Resizing *)

Lemma hashmap_rehash_with_Ok ins q new_size old old_size al r q' al' :
  hashmap_rehash_with ins q new_size old old_size al = Ok (r, q', al') ->
  (exists al1, calloc al = Ok (false, al1) /\
               r = -1 /\ q' = set_data q old /\ al' = al1) \/
  (exists al1, calloc al = Ok (true, al1) /\ r = 0 /\
     rehash_loop ins old (Z.to_nat old_size) 0
       (set_data_cnt
          (set_data_size
             (set_data q (Some (replicate (Z.to_nat new_size) None)))
             new_size) 0) al1 = Ok (q', al')).
Proof.
  unfold hashmap_rehash_with.
  intros ([] & al1 & Hc & H)%bind_Ok; cbn [negb] in H.
  - right. apply bind_Ok in H as (q4 & al2 & Hl & [[= -> ->] ->]%ret_Ok).
    eauto.
  - left. apply ret_Ok in H as [[= -> ->] ->]. eauto.
Qed.

(** A property that every insertion keeps is kept by the migration loop. *)
Lemma rehash_loop_inv (P : hashmap -> Prop) ins old :
  (forall q p al r q' al', P q -> ins q (Some p) al = Ok (r, q', al') -> P q') ->
  forall n i q al q' al',
    P q -> rehash_loop ins old n i q al = Ok (q', al') -> P q'.
Proof.
  intros Hins. induction n as [|n IH]; intros i q al q' al' HP.
  - now intros [-> _]%ret_Ok.
  - cbn [rehash_loop].
    intros (s & al1 & [Hs ->]%lift_Ok & H)%bind_Ok.
    destruct s as [p|]; [|now apply lift_Ok in H as [[=] _]].
    destruct (negb (value p =? 0)).
    + apply bind_Ok in H as ([r0 q0] & al2 & Hi & H).
      eapply IH; [|exact H]. eapply Hins; eauto.
    + eapply IH; eauto.
Qed.

(** *** The capacity invariant *)

Lemma hashmap_default_probe_func_Ok_size fuel q src k pos :
  hashmap_default_probe_func fuel q src k = Ok pos -> data_size q <> 0.
Proof.
  unfold hashmap_default_probe_func.
  destruct (Z.eqb_spec (data_size q) 0); [discriminate|auto].
Qed.

Lemma pow2_cap_double n :
  pow2_cap n -> wrap (n * 2) = 0 \/ (pow2_cap (wrap (n * 2)) /\ wrap (n * 2) = n * 2).
Proof.
  intros (e & He & ->). unfold ui_bits in He.
  destruct (Z.eq_dec e 31) as [->|Hne].
  - left. reflexivity.
  - right. assert (2 ^ e * 2 = 2 ^ (e + 1)) as E
      by (rewrite Z.pow_add_r by lia; reflexivity).
    assert (wrap (2 ^ e * 2) = 2 ^ e * 2) as Ew.
    { apply wrap_small. rewrite E. unfold ui_modulus, ui_bits. split.
      - apply Z.pow_nonneg. lia.
      - apply Z.pow_lt_mono_r; lia. }
    split; [|assumption]. rewrite Ew, E. exists (e + 1). unfold ui_bits. split; [lia|reflexivity].
Qed.

Lemma pow2_cap_half n : pow2_cap n -> 4 < n -> pow2_cap (n / 2) /\ 4 <= n / 2.
Proof.
  intros (e & He & ->) Hn.
  assert (3 <= e).
  { destruct (Z_lt_le_dec e 3) as [Hlt|]; [|assumption].
    assert (2 ^ e <= 2 ^ 2) by (apply Z.pow_le_mono_r; lia).
    change (2 ^ 2) with 4 in *. lia. }
  assert (2 ^ e / 2 = 2 ^ (e - 1)) as E.
  { replace e with (e - 1 + 1) at 1 by lia. rewrite Z.pow_add_r by lia.
    change (2 ^ 1) with 2. apply Z.div_mul. lia. }
  rewrite E. split.
  - exists (e - 1). split; [lia|reflexivity].
  - change 4 with (2 ^ 2). apply Z.pow_le_mono_r; lia.
Qed.

Lemma hashmap_insert_some_size_inv fuel : forall q p al r q' al',
  size_inv q \/ data_size q = 0 ->
  hashmap_insert fuel q (Some p) al = Ok (r, q', al') ->
  size_inv q'.
Proof.
  induction fuel as [|fuel IH]; intros q p al r q' al' Hinv H; [discriminate|].
  apply hashmap_insert_Ok in H as (fuel' & q1 & pos & [= <-] & Hg & Hp & Hq').
  apply hashmap_default_probe_func_Ok_size in Hp.
  assert (size_inv q1 \/ data_size q1 = 0) as [H1|H1]; [|  |contradiction].
  { unfold grown in Hg. destruct (data_cnt q >=? grow_limit q).
    - destruct Hg as (r0 & Hg). unfold hashmap_grow, hashmap_grow_with in Hg.
      apply hashmap_rehash_with_Ok in Hg
        as [(al1 & _ & _ & -> & _)|(al1 & _ & _ & Hl)]; [exact Hinv|].
      eapply (rehash_loop_inv (fun q0 => size_inv q0 \/ data_size q0 = 0));
        [| |exact Hl].
      + intros q0 p0 al0 r1 q2 al2 H0 Hi. left. exact (IH _ _ _ _ _ _ H0 Hi).
      + cbv beta. unfold size_inv. cbn [data_size set_data_cnt set_data_size].
        destruct Hinv as [[Hc Hge]|E0]; [|right; now rewrite E0].
        destruct (pow2_cap_double _ Hc) as [E|[Hc' E]]; [right; exact E|].
        left. split; [exact Hc'|]. lia.
    - destruct Hg as [-> _]. exact Hinv. }
  destruct Hq' as [(p0 & _ & _ & ->)|(_ & _ & ->)]; exact H1.
Qed.

Lemma hashmap_insert_size_inv fuel q d al r q' al' :
  size_inv q ->
  hashmap_insert fuel q d al = Ok (r, q', al') ->
  size_inv q'.
Proof.
  intros Hinv. destruct d as [p|].
  - apply hashmap_insert_some_size_inv. now left.
  - destruct fuel; now intros [[= _ <-] _]%ret_Ok.
Qed.

Lemma hashmap_shrink_size_inv fuel q al r q' al' :
  size_inv q ->
  hashmap_shrink fuel q al = Ok (r, q', al') ->
  size_inv q'.
Proof.
  intros Hinv. unfold hashmap_shrink, hashmap_shrink_with.
  destruct (Z.leb_spec (data_size q) 4) as [Hle|Hgt].
  - now intros [[= _ <-] _]%ret_Ok.
  - intros [(al1 & _ & _ & -> & _)|(al1 & _ & _ & Hl)]%hashmap_rehash_with_Ok;
      [exact Hinv|].
    eapply (rehash_loop_inv size_inv); [| |exact Hl].
    + intros q0 p0 al0 r1 q2 al2. apply hashmap_insert_size_inv.
    + destruct Hinv as [Hc _]. apply (pow2_cap_half _ Hc Hgt).
Qed.

Lemma hashmap_erase_size_inv fuel q k fk al r q' al' :
  size_inv q ->
  hashmap_erase fuel q k fk al = Ok (r, q', al') ->
  size_inv q'.
Proof.
  intros Hinv. unfold hashmap_erase. destruct k as [k|].
  - intros (pos & al1 & _ & H)%bind_Ok.
    apply bind_Ok in H as (s & al2 & _ & H).
    destruct s as [p|]; [|now apply ret_Ok in H as [[= _ <-] _]].
    apply bind_Ok in H as (q3 & al3 & H & [[= _ <-] _]%ret_Ok).
    destruct (below_shrink _).
    + apply bind_Ok in H as ([r0 q0] & al4 & H & [-> _]%ret_Ok).
      revert H. apply hashmap_shrink_size_inv. exact Hinv.
    + apply ret_Ok in H as [-> _]. exact Hinv.
  - now intros [[= _ <-] _]%ret_Ok.
Qed.

Lemma hashmap_init_Ok al q al' :
  hashmap_init al = Ok (Some q, al') ->
  exists d, q = mk_hashmap 4 0 d 313 (8 # 10) (2 # 10) /\
            (d = None \/ d = Some [None; None; None; None]).
Proof.
  unfold hashmap_init.
  intros ([] & al1 & _ & H)%bind_Ok; cbn [negb] in H;
    [|now apply lift_Ok in H as [[=] _]].
  apply bind_Ok in H as (ok & al2 & _ & [[= ->] _]%ret_Ok).
  destruct ok; eauto.
Qed.

Lemma reachable_size_inv q : reachable q -> size_inv q.
Proof.
  induction 1 as [al q al' Hi|fuel q d al r q' al' _ IH Hs
                 |fuel q k fk al r q' al' _ IH Hs].
  - apply hashmap_init_Ok in Hi as (d & -> & _).
    split; [exists 2; split; [unfold ui_bits; lia|reflexivity]|cbn; lia].
  - exact (hashmap_insert_size_inv _ _ _ _ _ _ _ IH Hs).
  - exact (hashmap_erase_size_inv _ _ _ _ _ _ _ _ IH Hs).
Qed.

(** Claim C6.  In every state reached from a freshly initialized map by
    calls of insert, find and erase that return, the capacity [data_size] is
    a power of two and at least 4, and a shrink of such a state that returns
    leaves a capacity of at least 4. *)
Theorem reachable_capacity q :
  reachable q ->
  (exists e, 0 <= e /\ data_size q = 2 ^ e) /\ 4 <= data_size q /\
  (forall fuel al r q' al',
     hashmap_shrink fuel q al = Ok (r, q', al') -> 4 <= data_size q').
Proof.
  intros Hr. pose proof (reachable_size_inv q Hr) as Hinv.
  pose proof Hinv as [(e & He & E) Hge]. repeat split.
  - exists e. split; [lia|exact E].
  - exact Hge.
  - intros fuel al r q' al' Hs.
    now destruct (hashmap_shrink_size_inv _ _ _ _ _ _ Hinv Hs).
Qed.

(** ** Locating stored keys *)

Lemma probe_loop_mono q k fuel : forall fuel' src incri i,
  probe_loop fuel q src incri k = Ok i -> (fuel <= fuel')%nat ->
  probe_loop fuel' q src incri k = Ok i.
Proof.
  induction fuel as [|fuel IH]; intros fuel' src incri i; [discriminate|].
  destruct fuel' as [|fuel']; [lia|]. cbn [probe_loop].
  destruct (slot_at (data q) src) as [[p|]| |]; cbn [rbind]; auto.
  destruct (hashmap_key_cmp (Some (pkey p)) k =? 0); auto.
  intros H Hle. apply IH; [assumption|lia].
Qed.

Lemma hashmap_default_probe_func_mono q k fuel fuel' src i :
  hashmap_default_probe_func fuel q src k = Ok i -> (fuel <= fuel')%nat ->
  hashmap_default_probe_func fuel' q src k = Ok i.
Proof.
  unfold hashmap_default_probe_func.
  destruct (data_size q =? 0); [discriminate|]. apply probe_loop_mono.
Qed.

Lemma probe_loop_eqv q k1 k2 fuel : forall src incri,
  key_eqv k1 k2 ->
  probe_loop fuel q src incri (Some k1) = probe_loop fuel q src incri (Some k2).
Proof.
  induction fuel as [|fuel IH]; intros src incri Heqv; [reflexivity|].
  cbn [probe_loop].
  destruct (slot_at (data q) src) as [[p|]| |]; cbn [rbind]; auto.
  rewrite (hashmap_key_cmp_eqv_r _ k1 k2 Heqv).
  destruct (_ =? 0); auto.
Qed.

Lemma locatable_fresh q n m c :
  locatable (set_data_cnt
               (set_data_size (set_data q (Some (replicate n None))) m) c).
Proof.
  intros d i p [= <-] [[=] _]%lookup_replicate.
Qed.

Lemma locatable_store q d pos p fuel c :
  data q = Some d -> d !! Z.to_nat pos = Some None ->
  hashmap_default_probe_func fuel q
    (hashmap_default_hash_func (Some (pkey p)) (prime q))
    (Some (pkey p)) = Ok pos ->
  locatable q ->
  locatable (set_data_cnt (store_slot q pos (Some p)) c).
Proof.
  intros Hd He Hp Hloc. set (q' := set_data_cnt _ _).
  assert (data q' = Some (<[Z.to_nat pos := Some p]> d)) as Hd'
    by (unfold q', store_slot; cbn; now rewrite Hd).
  intros d' i p' Hd'' Hl. rewrite Hd' in Hd''. injection Hd'' as <-.
  replace (prime q') with (prime q) by reflexivity.
  unfold hashmap_default_probe_func in *.
  replace (data_size q') with (data_size q) by reflexivity.
  destruct (data_size q =? 0) eqn:Ez; [discriminate|].
  destruct (decide (i = Z.to_nat pos)) as [->|Hne].
  - rewrite list_lookup_insert_eq in Hl
      by (apply lookup_lt_Some in He; assumption).
    injection Hl as <-. exists fuel, pos. split; [|reflexivity].
    eapply (probe_loop_store_hit q q' d pos (Some p)); eauto.
    split; reflexivity.
  - rewrite list_lookup_insert_ne in Hl by auto.
    destruct (Hloc d i p' Hd Hl) as (fuel0 & pos0 & H0 & E0).
    unfold hashmap_default_probe_func in H0. rewrite Ez in H0.
    exists fuel0, pos0. split; [|assumption].
    eapply (probe_loop_store_other q q' d pos (Some p)); eauto. congruence.
Qed.

Lemma hashmap_insert_locatable fuel : forall q d al r q' al',
  locatable q ->
  hashmap_insert fuel q d al = Ok (r, q', al') ->
  locatable q'.
Proof.
  induction fuel as [|fuel IH]; intros q [p|] al r q' al' Hloc H;
    try (now apply ret_Ok in H as [[= _ <-] _]); [discriminate|].
  apply hashmap_insert_Ok in H as (fuel' & q1 & pos & [= <-] & Hg & Hp & Hq').
  assert (locatable q1) as H1.
  { unfold grown in Hg. destruct (data_cnt q >=? grow_limit q).
    - destruct Hg as (r0 & Hg). unfold hashmap_grow, hashmap_grow_with in Hg.
      apply hashmap_rehash_with_Ok in Hg
        as [(al1 & _ & _ & -> & _)|(al1 & _ & _ & Hl)].
      + destruct q. exact Hloc.
      + eapply (rehash_loop_inv locatable); [| |exact Hl].
        * intros q0 p0 al0 r1 q2 al2. apply IH.
        * apply locatable_fresh.
    - destruct Hg as [-> _]. exact Hloc. }
  destruct Hq' as [(p0 & _ & _ & ->)|(Hs & _ & ->)]; [exact H1|].
  unfold slot_at in Hs. destruct (data q1) as [d|] eqn:Hd; [|discriminate].
  destruct (d !! Z.to_nat pos) as [[?|]|] eqn:E; try discriminate.
  eapply locatable_store; eauto.
Qed.

Lemma built_locatable q : built q -> locatable q.
Proof.
  induction 1 as [al q al' Hi|fuel q d al r q' al' _ IH Hs].
  - apply hashmap_init_Ok in Hi as (d & -> & [->| ->]); intros d' i p [= <-].
    destruct i as [|[|[|[|i]]]]; discriminate.
  - exact (hashmap_insert_locatable _ _ _ _ _ _ _ IH Hs).
Qed.

(** Claim C4, amended.  In a map state where every stored key is in the slot
    at which its own probe stops (every state built by insertions alone is
    one) and where [data_cnt] is below the grow limit, so that no resize
    comes first, [hashmap_insert] of a pair whose key is equal in length and
    content to a stored key returns the duplicate status 1, neither 0 nor
    -1, and leaves every field of the map as it was. *)
Theorem hashmap_insert_duplicate q d i p0 k v al :
  locatable q -> data q = Some d -> d !! i = Some (Some p0) ->
  key_eqv (pkey p0) k ->
  data_cnt q < grow_limit q ->
  exists fuel0, forall fuel, (fuel0 <= fuel)%nat ->
    hashmap_insert fuel q (Some (mk_pair k v)) al = Ok (1, q, al).
Proof.
  intros Hloc Hd Hl Heqv Hcnt.
  destruct (Hloc d i p0 Hd Hl) as (fuel0 & pos & Hp & Hi).
  exists (S fuel0). intros [|fuel] Hfuel; [lia|].
  cbn [hashmap_insert pkey].
  destruct (Z.geb_spec (data_cnt q) (grow_limit q)) as [Hge|_]; [lia|].
  unfold bind at 1. cbn [ret rbind].
  rewrite <- (hashmap_default_hash_func_eqv _ _ _ Heqv).
  assert (hashmap_default_probe_func (S fuel) q
            (hashmap_default_hash_func (Some (pkey p0)) (prime q)) (Some k)
          = Ok pos) as Hp'.
  { apply (hashmap_default_probe_func_mono _ _ _ (S fuel)) in Hp; [|lia].
    unfold hashmap_default_probe_func in *.
    destruct (data_size q =? 0); [discriminate|].
    now rewrite <- (probe_loop_eqv _ _ _ _ _ _ Heqv). }
  unfold bind, lift. rewrite Hp'. cbn [rbind].
  unfold slot_at. rewrite Hd, Hi, Hl. reflexivity.
Qed.

(** ** The unguarded read in the migration loop *)

Lemma rehash_loop_null_slot ins old i : 
  slot_at old i = Ok None ->
  forall n j q al x,
    j <= i < j + Z.of_nat n ->
    rehash_loop ins old n j q al <> Ok x.
Proof.
  intros Hnull. induction n as [|n IH]; intros j q al [q' al'] Hj H; [lia|].
  cbn [rehash_loop] in H.
  apply bind_Ok in H as (s & al1 & [Hs ->]%lift_Ok & H).
  destruct (Z.eq_dec j i) as [->|Hne].
  - rewrite Hnull in Hs. injection Hs as <-.
    now apply lift_Ok in H as [[=] _].
  - destruct s as [p|]; [|now apply lift_Ok in H as [[=] _]].
    destruct (negb (value p =? 0)).
    + apply bind_Ok in H as (r & al2 & _ & H).
      apply (IH (j + 1) (snd r) al2 (q', al')); [lia|exact H].
    + apply (IH (j + 1) q al (q', al')); [lia|exact H].
Qed.

(** Claim C2 fails on the code.  Whenever the allocation of the new array
    succeeds and the old array has a null slot below [old_size],
    [hashmap_rehash] does not return: the migration loop reads
    [old[i]->value] through that null slot (or an earlier insertion of the
    loop has already exhausted the fuel). *)
Theorem hashmap_rehash_null_slot fuel q new_size old old_size al al1 i :
  calloc al = Ok (true, al1) ->
  0 <= i < old_size ->
  slot_at old i = Ok None ->
  hashmap_rehash fuel q new_size old old_size al = Fault \/
  hashmap_rehash fuel q new_size old old_size al = Timeout.
Proof.
  intros Hc Hi Hnull.
  destruct (hashmap_rehash fuel q new_size old old_size al)
    as [[[r q'] al']| |] eqn:H; [exfalso|now left|now right].
  apply hashmap_rehash_with_Ok in H
    as [(al2 & Hc' & _)|(al2 & _ & _ & Hl)]; [congruence|].
  revert Hl. apply (rehash_loop_null_slot _ old i Hnull). lia.
Qed.

Lemma hashmap_rehash_null_slot_witness :
  hashmap_rehash 8 after_abc 8 (data after_abc) 4 [] = Fault \/
  hashmap_rehash 8 after_abc 8 (data after_abc) 4 [] = Timeout.
Proof.
  apply (hashmap_rehash_null_slot 8 after_abc 8 (data after_abc) 4 [] [] 0);
    [reflexivity | lia | reflexivity].
Defined.

Example hashmap_rehash_after_abc fuel :
  hashmap_rehash fuel after_abc 8 (data after_abc) 4 [] = Fault.
Proof. reflexivity. Qed.

(** Claim C1 fails on the code.  After ["a"], ["b"], ["c"] are inserted
    into a fresh map and are found with their values, the fourth insertion
    meets the grow condition and the resize faults on the empty slot 0
    instead of keeping the three keys. *)
Theorem resize_faults_after_three_inserts fuel :
  insert_all (S fuel) [pair_a; pair_b; pair_c] fresh []
    = Ok ([0; 0; 0], after_abc, []) /\
  hashmap_find (S fuel) after_abc (Some key_a) false = Ok 1 /\
  hashmap_find (S fuel) after_abc (Some key_b) false = Ok 2 /\
  hashmap_find (S fuel) after_abc (Some key_c) false = Ok 3 /\
  (data_cnt after_abc >=? grow_limit after_abc) = true /\
  hashmap_insert (S fuel) after_abc (Some pair_d) [] = Fault.
Proof. repeat split; vm_compute; reflexivity. Qed.

(** The same on the erase side. *)
Example shrink_faults_after_erase fuel :
  below_shrink (set_data_cnt table_de 1) = true /\
  hashmap_erase (S fuel) table_de (Some key_d) false [] = Fault.
Proof. split; vm_compute; reflexivity. Qed.

(** Forward steps through [reachable], computing each next state. *)
Ltac reach_insert_step H p al :=
  lazymatch type of H with
  | reachable ?q =>
      let res := eval vm_compute in (hashmap_insert 4 q (Some p) al) in
      lazymatch res with
      | Ok (?r0, ?q', ?al') =>
          apply (fun Hq => reach_insert 4 q (Some p) al r0 q' al' Hq eq_refl) in H
      end
  end.

Ltac reach_erase_step H k al :=
  lazymatch type of H with
  | reachable ?q =>
      let res := eval vm_compute in (hashmap_erase 4 q (Some k) false al) in
      lazymatch res with
      | Ok (?r0, ?q', ?al') =>
          apply (fun Hq => reach_erase 4 q (Some k) false al r0 q' al' Hq eq_refl) in H
      end
  end.

Lemma after_abc_reachable : reachable after_abc.
Proof.
  pose proof (reach_init [] fresh [] eq_refl) as H.
  reach_insert_step H pair_a (@nil bool).
  reach_insert_step H pair_b (@nil bool).
  reach_insert_step H pair_c (@nil bool).
  exact H.
Qed.

Lemma full4_reachable : reachable full4.
Proof.
  pose proof after_abc_reachable as H.
  reach_insert_step H pair_d [false].
  exact H.
Qed.

Lemma table_de_reachable : reachable table_de.
Proof.
  pose proof full4_reachable as H.
  reach_insert_step H pair_e (@nil bool).
  reach_erase_step H key_a (@nil bool).
  reach_erase_step H key_b (@nil bool).
  reach_erase_step H key_c (@nil bool).
  exact H.
Qed.

(** Claim C8 fails on the code.  ["a"] and ["e"] are inserted, ["e"] is found
    with value 5; erasing ["a"] returns 0 without a resize, and
    [hashmap_find] of ["e"] then returns [NULL]: the probe for ["e"] stops
    at the slot that erase set to null. *)
Theorem erase_hides_colliding_key fuel :
  insert_all (S (S fuel)) [pair_a; pair_e] fresh [] = Ok ([0; 0], after_ae, []) /\
  hashmap_find (S (S fuel)) after_ae (Some key_e) false = Ok 5 /\
  hashmap_erase (S fuel) after_ae (Some key_a) false []
    = Ok (0, after_ae_erased_a, []) /\
  data_size after_ae_erased_a = data_size after_ae /\
  hashmap_find (S fuel) after_ae_erased_a (Some key_e) false = Ok 0.
Proof. repeat split; vm_compute; reflexivity. Qed.

(** Claim C9 fails on the code.  When the first allocation fails,
    [hashmap_init] stores through the null handle; when the second fails it
    returns a non-null handle whose [data] is null; and no outcome of
    [hashmap_init] is a null handle. *)
Theorem hashmap_init_unchecked_allocation al :
  hashmap_init (false :: al) = Fault /\
  hashmap_init (true :: false :: al) = Ok (Some half_built, al) /\
  data half_built = None /\
  (forall al0 al', hashmap_init al0 <> Ok (None, al')).
Proof.
  repeat split.
  intros al0 al' H. unfold hashmap_init in H.
  apply bind_Ok in H as ([] & al1 & _ & H); cbn [negb] in H;
    [|now apply lift_Ok in H as [[=] _]].
  now apply bind_Ok in H as (ok & al2 & _ & [[=] _]%ret_Ok).
Qed.

(** Claim C10 fails on the code.  The empty key precedes the key of
    [2^31 + 1] bytes by size, yet [hashmap_key_cmp] returns a positive
    number for (empty, huge) and a negative one for (huge, empty): the
    difference of the sizes wraps in the conversion to [si_t]. *)
Theorem hashmap_key_cmp_size_wraps :
  key_wf key_empty /\ key_wf key_huge /\
  key_precedes key_empty key_huge /\
  hashmap_key_cmp (Some key_empty) (Some key_huge) = 2147483647 /\
  hashmap_key_cmp (Some key_huge) (Some key_empty) = - 2147483647.
Proof.
  assert (key_wf key_huge) as Hw.
  { unfold key_wf, key_huge. cbn [size key].
    rewrite length_replicate, Z2Nat.id by lia. rewrite ui_modulus_eq. lia. }
  assert (key_wf key_empty) as He.
  { unfold key_wf, key_empty. cbn [size key length].
    rewrite ui_modulus_eq. lia. }
  split; [exact He|]. split; [exact Hw|]. split; [|split].
  - unfold key_precedes, key_empty, key_huge. cbn [size]. lia.
  - unfold hashmap_key_cmp, key_empty, key_huge. cbn [size].
    change (0 =? 2147483649) with false. cbn [negb].
    vm_compute. reflexivity.
  - unfold hashmap_key_cmp, key_empty, key_huge. cbn [size].
    change (2147483649 =? 0) with false. cbn [negb].
    vm_compute. reflexivity.
Qed.

(** Claim C5, as the specification words it, is false: the run of the first
    four insertions never returns. *)
Lemma five_inserts_not_as_specified : ~ five_inserts_as_specified.
Proof.
  intros (fuel & q4 & al4 & q5 & al5 & H & _).
  destruct fuel as [|fuel]; vm_compute in H; discriminate.
Qed.

(** Claim C5, amended.  From a fresh map, inserting ["a"], ["b"], ["c"] with
    values 1 to 3 keeps capacity 4 and succeeds without a grow, and the
    three keys are found with their values; the grow limit at capacity 4 is
    [(ui_t)(4 * 0.8) = 3], so the fourth insertion is the first to meet
    [data_cnt >= limit] and calls [hashmap_grow], which is the migration to
    capacity 8. *)
Theorem three_inserts_then_grow fuel :
  insert_all (S fuel) [pair_a] fresh [] = Ok ([0], after_a, []) /\
  insert_all (S fuel) [pair_a; pair_b] fresh [] = Ok ([0; 0], after_ab, []) /\
  insert_all (S fuel) [pair_a; pair_b; pair_c] fresh []
    = Ok ([0; 0; 0], after_abc, []) /\
  Forall (fun q => data_size q = 4 /\ grow_limit q = 3)
         [fresh; after_a; after_ab; after_abc] /\
  Forall (fun q => (data_cnt q >=? grow_limit q) = false)
         [fresh; after_a; after_ab] /\
  Forall (fun p => hashmap_find (S fuel) after_abc (Some (pkey p)) false
                   = Ok (value p))
         [pair_a; pair_b; pair_c] /\
  (data_cnt after_abc >=? grow_limit after_abc) = true /\
  hashmap_grow fuel after_abc = hashmap_rehash fuel after_abc 8 (data after_abc) 4.
Proof.
  repeat split; repeat constructor; vm_compute; reflexivity.
Qed.

(** The run the specification describes is the one in which the allocation
    of the fourth insertion's grow fails: the fourth pair then fills the
    four-slot table, and the fifth insertion migrates four non-null slots. *)
Example five_inserts_when_first_grow_fails fuel :
  insert_all (S (S fuel)) [pair_a; pair_b; pair_c; pair_d] fresh [false]
    = Ok ([0; 0; 0; 0], full4, []) /\
  hashmap_insert (S (S fuel)) full4 (Some pair_e) [] = Ok (0, after_abcde, []) /\
  Forall (fun p => hashmap_find (S (S fuel)) after_abcde (Some (pkey p)) false
                   = Ok (value p))
         [pair_a; pair_b; pair_c; pair_d; pair_e].
Proof. repeat split; repeat constructor; vm_compute; reflexivity. Qed.

(** The scenario pairs are what the constructor returns. *)
Example hashmap_pair_generate_a al :
  hashmap_pair_generate [x61] 1 1 (true :: al) = Ok (pair_a, al) /\
  hashmap_pair_generate [x61] 1 1 (false :: al) = Fault /\
  hashmap_key_generate [x61; x7a] 1 (true :: al) = Ok (key_a_view, al).
Proof. repeat split. Qed.

Lemma full4_valid : hashmap_valid full4.
Proof.
  exists [Some pair_d; Some pair_a; Some pair_b; Some pair_c].
  split; [reflexivity|]. split; [reflexivity|]. split; [|split].
  - split; [|cbn; lia].
    exists 2. split; [unfold ui_bits; lia|reflexivity].
  - reflexivity.
  - intros i j p1 p2 Hi Hj [_ Hb].
    destruct i as [|[|[|[|i]]]]; try discriminate; injection Hi as <-;
      destruct j as [|[|[|[|j]]]]; try discriminate; injection Hj as <-;
      try reflexivity; discriminate.
Qed.

Lemma built_reachable q : built q -> reachable q.
Proof.
  induction 1 as [al q al' Hi|fuel q d al r q' al' _ IH Hs].
  - exact (reach_init _ _ _ Hi).
  - exact (reach_insert _ _ _ _ _ _ _ IH Hs).
Qed.

(** [full4] is built by insertions alone, so its keys are locatable. *)
Lemma full4_built : built full4.
Proof.
  apply (built_insert 4 after_abc (Some pair_d) [false] 0 full4 []);
    [|reflexivity].
  apply (built_insert 4 after_ab (Some pair_c) [] 0 after_abc []);
    [|reflexivity].
  apply (built_insert 4 after_a (Some pair_b) [] 0 after_ab []);
    [|reflexivity].
  apply (built_insert 4 fresh (Some pair_a) [] 0 after_a []);
    [|reflexivity].
  apply (built_init [] fresh []). reflexivity.
Qed.

(** Claim C4, as the specification words it, is false: in the valid map
    [full4] the insertion of a second pair with key ["a"] returns 1 and
    leaves a map of capacity 8. *)
Lemma duplicate_changes_full_map : ~ duplicate_leaves_any_valid_map.
Proof.
  intros H.
  destruct (H full4 _ 1%nat pair_a key_a 9 8%nat [] 1 full4_grown []
              full4_valid eq_refl eq_refl (conj eq_refl eq_refl) eq_refl)
    as [_ [=]].
Qed.

Lemma hashmap_insert_duplicate_witness :
  exists fuel0, forall fuel, (fuel0 <= fuel)%nat ->
    hashmap_insert fuel after_ab (Some (mk_pair key_a_view 9)) []
    = Ok (1, after_ab, []).
Proof.
  apply (hashmap_insert_duplicate after_ab
           [None; Some pair_a; Some pair_b; None] 1%nat pair_a key_a_view 9 []).
  - intros d i p [= <-] Hl.
    destruct i as [|[|[|[|i]]]]; try discriminate; injection Hl as <-.
    + exists 1%nat, 1. split; reflexivity.
    + exists 1%nat, 2. split; reflexivity.
  - reflexivity.
  - reflexivity.
  - split; reflexivity.
  - vm_compute. reflexivity.
Defined.

Lemma hashmap_find_after_insert_witness :
  hashmap_find 4 after_a (Some key_a_view) false = Ok 1.
Proof.
  apply (hashmap_find_after_insert 4 fresh key_a 1 key_a_view false [] after_a []).
  - lia.
  - split; reflexivity.
  - reflexivity.
Defined.

Lemma reachable_capacity_witness :
  (exists e, 0 <= e /\ data_size after_abcde = 2 ^ e) /\
  4 <= data_size after_abcde /\
  (forall fuel al r q' al',
     hashmap_shrink fuel after_abcde al = Ok (r, q', al') -> 4 <= data_size q').
Proof.
  apply (reachable_capacity after_abcde).
  apply (reach_insert 4 full4 (Some pair_e) [] 0 after_abcde []);
    [|reflexivity].
  apply (reach_insert 4 after_abc (Some pair_d) [false] 0 full4 []);
    [|reflexivity].
  apply (reach_insert 4 after_ab (Some pair_c) [] 0 after_abc []);
    [|reflexivity].
  apply (reach_insert 4 after_a (Some pair_b) [] 0 after_ab []);
    [|reflexivity].
  apply (reach_insert 4 fresh (Some pair_a) [] 0 after_a []);
    [|reflexivity].
  apply (reach_init [] fresh []). reflexivity.
Defined.

Lemma default_probe_reaches_first_hit_witness :
  (exists m, 0 <= m < data_size after_ae /\
     (forall fuel, (Z.to_nat m < fuel)%nat ->
        hashmap_default_probe_func fuel after_ae 101 (Some key_e)
        = Ok (probe_pos (data_size after_ae) 101 m)) /\
     slot_hit [None; Some pair_a; Some pair_e; None] (Some key_e)
              (probe_pos (data_size after_ae) 101 m) = true /\
     (forall j, 0 <= j < m ->
        slot_hit [None; Some pair_a; Some pair_e; None] (Some key_e)
                 (probe_pos (data_size after_ae) 101 j) = false)) /\
  (forall t, 0 <= t < data_size after_ae ->
     exists j, 0 <= j < data_size after_ae /\
               probe_pos (data_size after_ae) 101 j = t).
Proof.
  apply (default_probe_reaches_first_hit after_ae
           [None; Some pair_a; Some pair_e; None] (Some key_e) 2 101).
  - reflexivity.
  - reflexivity.
  - unfold ui_bits. lia.
  - reflexivity.
  - exists 2. split; [cbn; lia|reflexivity].
Defined.

(** * Further properties of the unit *)

(** ** Comparison *)

Lemma memcmp_pos_iff s1 s2 n :
  (n <= length s1)%nat -> (n <= length s2)%nat ->
  0 < memcmp s1 s2 n <-> bytes_lt (take n s2) (take n s1).
Proof.
  revert s1 s2. induction n as [|n IH]; intros [|b1 t1] [|b2 t2] H1 H2;
    simpl in *; try lia; try tauto.
  destruct (Z.eqb_spec (byte_val b1) (byte_val b2)) as [E|E].
  - rewrite IH by lia.
    split; [intros H; right; auto | intros [H|[_ H]]; [lia | auto]].
  - split; [intros H; left; lia | intros [H|[H _]]; lia].
Qed.

(** X1.  For well-formed keys [hashmap_key_cmp] returns 0 exactly when the
    keys have equal length and byte-wise equal content, and it does so in
    one argument order exactly when it does in the other. *)
Theorem hashmap_key_cmp_equal_iff k1 k2 :
  key_wf k1 -> key_wf k2 ->
  (hashmap_key_cmp (Some k1) (Some k2) = 0 <-> key_eqv k1 k2) /\
  (hashmap_key_cmp (Some k1) (Some k2) = 0 <->
   hashmap_key_cmp (Some k2) (Some k1) = 0).
Proof.
  intros W1 W2. split.
  - now apply hashmap_key_cmp_zero_iff.
  - rewrite !hashmap_key_cmp_zero_iff by assumption.
    unfold key_eqv. split; intros [Hs Hb]; split; congruence.
Qed.

Lemma hashmap_key_cmp_equal_iff_witness :
  (hashmap_key_cmp (Some key_a) (Some key_a_view) = 0 <-> key_eqv key_a key_a_view) /\
  (hashmap_key_cmp (Some key_a) (Some key_a_view) = 0 <->
   hashmap_key_cmp (Some key_a_view) (Some key_a) = 0).
Proof.
  apply (hashmap_key_cmp_equal_iff key_a key_a_view);
    (split; [rewrite ui_modulus_eq; cbn; lia | cbn; lia]).
Defined.

(** X2.  For well-formed keys whose sizes are less than [2^31] apart the
    result is negative exactly when the first key precedes the second in
    the order by size and then content, and positive exactly when the
    second precedes the first. *)
Theorem hashmap_key_cmp_orders_close_sizes k1 k2 :
  key_wf k1 -> key_wf k2 ->
  - 2 ^ 31 <= size k1 - size k2 < 2 ^ 31 ->
  (hashmap_key_cmp (Some k1) (Some k2) < 0 <-> key_precedes k1 k2) /\
  (0 < hashmap_key_cmp (Some k1) (Some k2) <-> key_precedes k2 k1).
Proof.
  intros W1 W2 Hd. split; [now apply hashmap_key_cmp_neg_iff|].
  unfold hashmap_key_cmp, key_precedes, key_bytes.
  destruct (Z.eqb_spec (size k1) (size k2)) as [E|E]; simpl.
  - rewrite memcmp_pos_iff.
    + rewrite E. intuition lia.
    + now apply key_wf_len.
    + rewrite E. now apply key_wf_len.
  - rewrite to_si_small by exact Hd. intuition lia.
Qed.

Lemma hashmap_key_cmp_orders_close_sizes_witness :
  (hashmap_key_cmp (Some key_a) (Some key_b) < 0 <-> key_precedes key_a key_b) /\
  (0 < hashmap_key_cmp (Some key_a) (Some key_b) <-> key_precedes key_b key_a).
Proof.
  apply (hashmap_key_cmp_orders_close_sizes key_a key_b);
    [split; [rewrite ui_modulus_eq; cbn; lia | cbn; lia] ..| cbn; lia].
Defined.

(** ** Hashing *)

Lemma hash_loop_range res prime src n :
  0 <= res < ui_modulus -> 0 <= hash_loop res prime src n < ui_modulus.
Proof.
  revert res src. induction n as [|n IH]; intros res [|b src] Hr; simpl; auto.
  apply IH, wrap_range.
Qed.

(** X3.  The default hash of a key depends only on the bytes the key views,
    and it is a [ui_t]. *)
Theorem hashmap_default_hash_func_content k1 k2 prime :
  key_eqv k1 k2 ->
  hashmap_default_hash_func (Some k1) prime
  = hashmap_default_hash_func (Some k2) prime /\
  0 <= hashmap_default_hash_func (Some k1) prime < ui_modulus.
Proof.
  intros Heqv. split.
  - now apply hashmap_default_hash_func_eqv.
  - unfold hashmap_default_hash_func. apply hash_loop_range.
    rewrite ui_modulus_eq. lia.
Qed.

Lemma hashmap_default_hash_func_content_witness :
  hashmap_default_hash_func (Some key_a) 313
  = hashmap_default_hash_func (Some key_a_view) 313 /\
  0 <= hashmap_default_hash_func (Some key_a) 313 < ui_modulus.
Proof.
  apply (hashmap_default_hash_func_content key_a key_a_view 313).
  split; reflexivity.
Defined.

Lemma hash_loop_snoc prime b : forall src res,
  hash_loop res prime (src ++ [b]) (S (length src))
  = wrap (hash_loop res prime src (length src) * prime + byte_val b).
Proof.
  induction src as [|c src IH]; intros res; [reflexivity|].
  cbn [app length hash_loop]. apply IH.
Qed.

(** X4.  The default hash is the polynomial accumulation modulo [2^32]: 0
    for a null key and for the empty key, and appending a byte [b] to a key
    turns its hash [h] into [h * prime + b]. *)
Theorem hashmap_default_hash_func_horner bytes b prime :
  hashmap_default_hash_func None prime = 0 /\
  hashmap_default_hash_func (Some (mk_key [] 0)) prime = 0 /\
  hashmap_default_hash_func
    (Some (mk_key (bytes ++ [b]) (Z.of_nat (length bytes) + 1))) prime
  = wrap (hashmap_default_hash_func
            (Some (mk_key bytes (Z.of_nat (length bytes)))) prime * prime
          + byte_val b).
Proof.
  split; [reflexivity|]. split; [reflexivity|].
  unfold hashmap_default_hash_func. cbn [key size].
  replace (Z.to_nat (Z.of_nat (length bytes) + 1)) with (S (length bytes)) by lia.
  rewrite Nat2Z.id. apply hash_loop_snoc.
Qed.

(** ** Probing *)

Lemma probe_loop_sound q d k fuel : forall src incri pos,
  data q = Some d ->
  probe_loop fuel q src incri k = Ok pos ->
  slot_hit d k pos = true /\
  (pos = src \/ exists x, pos = x mod data_size q).
Proof.
  induction fuel as [|fuel IH]; intros src incri pos Hd; [discriminate|].
  cbn [probe_loop]. unfold slot_at. rewrite Hd.
  destruct (d !! Z.to_nat src) as [[p|]|] eqn:E; cbn [rbind]; try discriminate.
  - destruct (hashmap_key_cmp (Some (pkey p)) k =? 0) eqn:Ec.
    + intros [= <-]. unfold slot_hit. rewrite E. auto.
    + intros H. destruct (IH _ _ _ Hd H) as [Hh [->|Hx]]; eauto.
  - intros [= <-]. unfold slot_hit. rewrite E. auto.
Qed.

Lemma probe_func_sound fuel q d src k pos :
  data q = Some d -> 0 <= data_size q ->
  hashmap_default_probe_func fuel q src k = Ok pos ->
  slot_hit d k pos = true /\ 0 <= pos < data_size q /\
  (Z.to_nat pos < length d)%nat.
Proof.
  intros Hd Hn. unfold hashmap_default_probe_func.
  destruct (Z.eqb_spec (data_size q) 0) as [E|E]; [discriminate|].
  intros H. destruct (probe_loop_sound _ _ _ _ _ _ _ Hd H) as [Hh Hpos].
  split; [exact Hh|]. split.
  - destruct Hpos as [->|[x ->]]; apply Z.mod_pos_bound; lia.
  - unfold slot_hit in Hh.
    destruct (d !! Z.to_nat pos) eqn:El; [|discriminate].
    now apply lookup_lt_Some in El.
Qed.

(** X5.  Whenever the default probe function returns a position, that
    position is below the capacity and inside the array, and its slot is
    empty or holds a key that compares equal to the probed key. *)
Theorem hashmap_default_probe_func_sound fuel q d src k pos :
  data q = Some d -> 0 <= data_size q ->
  hashmap_default_probe_func fuel q src k = Ok pos ->
  slot_hit d k pos = true /\ 0 <= pos < data_size q /\
  (Z.to_nat pos < length d)%nat.
Proof.
  intros Hd Hn Hp. exact (probe_func_sound fuel q d src k pos Hd Hn Hp).
Qed.

Lemma hashmap_default_probe_func_sound_witness :
  slot_hit [None; Some pair_a; Some pair_e; None] (Some key_e) 2 = true /\
  0 <= 2 < data_size after_ae /\
  (Z.to_nat 2 < length [None; Some pair_a; Some pair_e; None])%nat.
Proof.
  apply (hashmap_default_probe_func_sound 2 after_ae _ 101 (Some key_e) 2);
    [reflexivity | cbn; lia | reflexivity].
Defined.

(** ** Keys that are not stored *)

(** In a table of [2^e] slots with a slot the probe can stop at, the probe
    stops within [2^e] iterations. *)
Lemma probe_stops q d k e start fuel :
  data q = Some d -> data_size q = 2 ^ e -> 0 <= e < ui_bits ->
  Z.of_nat (length d) = data_size q ->
  (exists i, 0 <= i < data_size q /\ slot_hit d k i = true) ->
  (Z.to_nat (data_size q) <= fuel)%nat ->
  exists pos, hashmap_default_probe_func fuel q start k = Ok pos.
Proof.
  intros Hd Hn He Hlen (i & Hi & Hhit) Hfuel.
  pose proof (pow2_pos e ltac:(lia)) as Hpos. rewrite Hn in *.
  destruct (probe_pos_surj e start i ltac:(lia) Hi) as (j0 & Hj0 & Ej0).
  destruct (least_true (fun j => slot_hit d k (probe_pos (2 ^ e) start j)) j0)
    as (m & Hm & Hm1 & Hm2); [lia|now rewrite Ej0|].
  exists (probe_pos (2 ^ e) start m).
  unfold hashmap_default_probe_func. rewrite Hn.
  destruct (Z.eqb_spec (2 ^ e) 0) as [E0|_]; [lia|].
  rewrite <- (probe_pos_0 (2 ^ e) start Hpos).
  pose proof (probe_loop_run q d k e start Hd Hn He ltac:(lia)
                (Z.to_nat m) 0 fuel) as Hrun.
  rewrite Z.add_0_l, Z2Nat.id in Hrun by lia. apply Hrun; try lia; auto.
Qed.

(** X6.  In a table whose capacity is a power of two, that has an empty slot
    and in which no stored key compares equal to [k], [hashmap_find] of [k]
    returns [NULL] and [hashmap_erase] of [k] returns 1 and leaves the map
    as it is, given fuel for one pass over the slots. *)
Theorem hashmap_absent_key q d k e fk al fuel :
  data q = Some d -> data_size q = 2 ^ e -> 0 <= e < ui_bits ->
  Z.of_nat (length d) = data_size q ->
  (exists i, d !! i = Some None) ->
  (forall i p, d !! i = Some (Some p) ->
               hashmap_key_cmp (Some (pkey p)) (Some k) <> 0) ->
  (Z.to_nat (data_size q) <= fuel)%nat ->
  hashmap_find fuel q (Some k) fk = Ok 0 /\
  hashmap_erase fuel q (Some k) fk al = Ok (1, q, al).
Proof.
  intros Hd Hn He Hlen (i & Hi) Habs Hfuel.
  pose proof (pow2_pos e ltac:(lia)) as Hpos.
  destruct (probe_stops q d (Some k) e
              (hashmap_default_hash_func (Some k) (prime q)) fuel Hd Hn He Hlen)
    as (pos & Hp); [|assumption|].
  { exists (Z.of_nat i). split.
    - apply lookup_lt_Some in Hi. lia.
    - unfold slot_hit. now rewrite Nat2Z.id, Hi. }
  pose proof (probe_loop_sound q d (Some k) fuel) as Hs.
  unfold hashmap_default_probe_func in Hp.
  destruct (data_size q =? 0) eqn:Ez; [discriminate|].
  destruct (Hs _ _ _ Hd Hp) as [Hh _]. unfold slot_hit in Hh.
  destruct (d !! Z.to_nat pos) as [[p|]|] eqn:El; try discriminate.
  - apply Z.eqb_eq in Hh. now destruct (Habs _ _ El).
  - unfold hashmap_find, hashmap_erase, hashmap_default_probe_func, bind, lift.
    rewrite Ez, Hp. cbn [rbind]. unfold slot_at. rewrite Hd, El. auto.
Qed.

Lemma hashmap_absent_key_witness :
  hashmap_find 4 after_ab (Some key_c) false = Ok 0 /\
  hashmap_erase 4 after_ab (Some key_c) false [] = Ok (1, after_ab, []).
Proof.
  apply (hashmap_absent_key after_ab [None; Some pair_a; Some pair_b; None]
           key_c 2 false [] 4).
  - reflexivity.
  - reflexivity.
  - unfold ui_bits. lia.
  - reflexivity.
  - exists 0%nat. reflexivity.
  - intros i p Hl.
    destruct i as [|[|[|[|i]]]]; try discriminate; injection Hl as <-;
      vm_compute; discriminate.
  - cbn. lia.
Defined.

(** ** Maps built by insertions alone *)

(** X7.  In a map built by insertions alone, every stored pair is found:
    [hashmap_find] with any key equal in length and content to a stored key
    returns the value stored with it. *)
Theorem built_finds_stored_key q d i p k fk :
  built q -> data q = Some d -> d !! i = Some (Some p) ->
  key_eqv (pkey p) k ->
  exists fuel0, forall fuel, (fuel0 <= fuel)%nat ->
    hashmap_find fuel q (Some k) fk = Ok (value p).
Proof.
  intros Hb Hd Hl Heqv.
  destruct (built_locatable q Hb d i p Hd Hl) as (fuel0 & pos & Hp & Hi).
  exists fuel0. intros fuel Hfuel.
  apply (hashmap_default_probe_func_mono _ _ _ fuel) in Hp; [|assumption].
  unfold hashmap_find.
  rewrite <- (hashmap_default_hash_func_eqv _ _ _ Heqv).
  unfold hashmap_default_probe_func in *.
  destruct (data_size q =? 0); [discriminate|].
  rewrite <- (probe_loop_eqv _ _ _ _ _ _ Heqv), Hp. cbn [rbind].
  unfold slot_at. now rewrite Hd, Hi, Hl.
Qed.

Lemma built_finds_stored_key_witness :
  exists fuel0, forall fuel, (fuel0 <= fuel)%nat ->
    hashmap_find fuel full4 (Some key_d) false = Ok 4.
Proof.
  apply (built_finds_stored_key full4
           [Some pair_d; Some pair_a; Some pair_b; Some pair_c] 0%nat pair_d
           key_d false).
  - apply (built_insert 4 after_abc (Some pair_d) [false] 0 full4 []);
      [|reflexivity].
    apply (built_insert 4 after_ab (Some pair_c) [] 0 after_abc []);
      [|reflexivity].
    apply (built_insert 4 after_a (Some pair_b) [] 0 after_ab []);
      [|reflexivity].
    apply (built_insert 4 fresh (Some pair_a) [] 0 after_a []);
      [|reflexivity].
    apply (built_init [] fresh []). reflexivity.
  - reflexivity.
  - reflexivity.
  - split; reflexivity.
Defined.

Lemma key_eqv_sym k1 k2 : key_eqv k1 k2 -> key_eqv k2 k1.
Proof. intros [Hs Hb]. split; congruence. Qed.

(** X8.  In a map built by insertions alone, two different slots never hold
    keys of equal length and content. *)
Theorem built_no_equal_keys q d i j p1 p2 :
  built q -> data q = Some d ->
  d !! i = Some (Some p1) -> d !! j = Some (Some p2) ->
  i <> j ->
  ~ key_eqv (pkey p1) (pkey p2).
Proof.
  intros Hb Hd H1 H2 Hne Heqv. apply Hne.
  pose proof (built_locatable q Hb) as Hloc.
  destruct (Hloc d i p1 Hd H1) as (f1 & pos1 & Hp1 & <-).
  destruct (Hloc d j p2 Hd H2) as (f2 & pos2 & Hp2 & <-).
  apply (hashmap_default_probe_func_mono _ _ _ (f1 + f2)%nat) in Hp1; [|lia].
  apply (hashmap_default_probe_func_mono _ _ _ (f1 + f2)%nat) in Hp2; [|lia].
  rewrite (hashmap_default_hash_func_eqv _ _ _ Heqv) in Hp1.
  unfold hashmap_default_probe_func in *.
  destruct (data_size q =? 0); [discriminate|].
  rewrite (probe_loop_eqv _ _ _ _ _ _ Heqv) in Hp1. congruence.
Qed.

Lemma built_no_equal_keys_witness : ~ key_eqv (pkey pair_a) (pkey pair_b).
Proof.
  apply (built_no_equal_keys after_ab [None; Some pair_a; Some pair_b; None]
           1%nat 2%nat pair_a pair_b).
  - apply (built_insert 4 after_a (Some pair_b) [] 0 after_ab []);
      [|reflexivity].
    apply (built_insert 4 fresh (Some pair_a) [] 0 after_a []);
      [|reflexivity].
    apply (built_init [] fresh []). reflexivity.
  - reflexivity.
  - reflexivity.
  - reflexivity.
  - lia.
Defined.

(** ** Erasing *)

Section clear.
Variables (q q' : hashmap) (d : list slot) (pos : Z).
Hypothesis Hd : data q = Some d.
Hypothesis Hd' : data q' = Some (<[Z.to_nat pos := None]> d).
Hypothesis Hsize : data_size q' = data_size q.

(** After the slot a probe stopped at is cleared, the probe stops there
    again. *)
Lemma probe_loop_clear k k' fuel : forall src incri,
  key_eqv k k' ->
  probe_loop fuel q src incri (Some k) = Ok pos ->
  probe_loop fuel q' src incri (Some k') = Ok pos.
Proof.
  intros src incri Heqv. revert src incri.
  induction fuel as [|fuel IH]; intros src incri; [discriminate|].
  intros H. pose proof (probe_loop_sound _ _ _ _ _ _ _ Hd H) as [Hhit _].
  revert H. cbn [probe_loop]. unfold slot_at. rewrite Hd, Hd', Hsize.
  destruct (d !! Z.to_nat src) as [[p0|]|] eqn:E; cbn [rbind];
    try discriminate.
  - destruct (hashmap_key_cmp (Some (pkey p0)) (Some k) =? 0) eqn:Ec.
    + intros [= ->].
      rewrite list_lookup_insert_eq by (apply lookup_lt_Some in E; assumption).
      reflexivity.
    + assert (Z.to_nat pos <> Z.to_nat src) as Hne.
      { intros Heq. unfold slot_hit in Hhit. rewrite Heq, E in Hhit. congruence. }
      rewrite list_lookup_insert_ne, E by assumption. cbn [rbind].
      rewrite <- (hashmap_key_cmp_eqv_r _ k k' Heqv), Ec. apply IH.
  - intros [= ->].
    rewrite list_lookup_insert_eq by (apply lookup_lt_Some in E; assumption).
    reflexivity.
Qed.
End clear.

Lemma set_data_same q : set_data q (data q) = q.
Proof. now destruct q. Qed.

(** A shrink that returns right after a slot below the capacity was cleared
    has left the map as it was. *)
Lemma hashmap_shrink_after_clear fuel q pos al r q' al' :
  0 <= pos < data_size q -> slot_at (data q) pos = Ok None ->
  hashmap_shrink fuel q al = Ok (r, q', al') -> q' = q.
Proof.
  intros Hpos Hnull. unfold hashmap_shrink, hashmap_shrink_with.
  destruct (data_size q <=? 4).
  - now intros [[= _ <-] _]%ret_Ok.
  - intros [(al1 & _ & _ & -> & _)|(al1 & _ & _ & Hl)]%hashmap_rehash_with_Ok.
    + apply set_data_same.
    + exfalso. revert Hl. apply (rehash_loop_null_slot _ _ pos Hnull). lia.
Qed.

(** X9.  When [hashmap_erase] returns 0, [hashmap_find] with any key equal
    to the erased one returns [NULL] on the map it left, the capacity is
    what it was (a shrink that returns has changed nothing), and
    [data_cnt] went down by one. *)
Theorem hashmap_find_after_erase fuel q k k' fk fk' al q' al' :
  0 <= data_size q -> key_eqv k k' ->
  hashmap_erase fuel q (Some k) fk al = Ok (0, q', al') ->
  hashmap_find fuel q' (Some k') fk' = Ok 0 /\
  data_size q' = data_size q /\
  data_cnt q' = wrap (data_cnt q - 1).
Proof.
  intros Hn Heqv. unfold hashmap_erase.
  intros (pos & al1 & [Hp ->]%lift_Ok & H)%bind_Ok.
  apply bind_Ok in H as (s & al2 & [Hs ->]%lift_Ok & H).
  destruct s as [p|]; [|now apply ret_Ok in H as [[=] _]].
  apply bind_Ok in H as (q3 & al3 & H & [[= <-] _]%ret_Ok).
  unfold slot_at in Hs. destruct (data q) as [d|] eqn:Hd; [|discriminate].
  destruct (d !! Z.to_nat pos) as [s|] eqn:El; [|discriminate].
  set (q2 := store_slot (set_data_cnt q (wrap (data_cnt q - 1))) pos None) in *.
  assert (data q2 = Some (<[Z.to_nat pos := None]> d)) as Hd2
    by (unfold q2, store_slot; cbn; now rewrite Hd).
  destruct (probe_func_sound _ _ _ _ _ _ Hd Hn Hp)
    as (_ & Hrange & Hlen).
  assert (q' = q2) as ->.
  { destruct (below_shrink q2).
    - apply bind_Ok in H as ([r0 q0] & al4 & H & [-> _]%ret_Ok).
      apply (hashmap_shrink_after_clear _ _ pos) in H; [exact H|exact Hrange|].
      unfold slot_at. rewrite Hd2, list_lookup_insert_eq by assumption.
      reflexivity.
    - now apply ret_Ok in H as [-> _]. }
  split; [|split; reflexivity].
  unfold hashmap_find.
  replace (prime q2) with (prime q) by reflexivity.
  rewrite <- (hashmap_default_hash_func_eqv k k' _ Heqv).
  unfold hashmap_default_probe_func in *.
  replace (data_size q2) with (data_size q) by reflexivity.
  destruct (data_size q =? 0); [discriminate|].
  rewrite (probe_loop_clear q q2 d pos Hd Hd2 eq_refl k k' _ _ _ Heqv Hp).
  cbn [rbind]. unfold slot_at.
  rewrite Hd2, list_lookup_insert_eq by assumption. reflexivity.
Qed.

Lemma hashmap_find_after_erase_witness :
  hashmap_find 4 after_ae_erased_a (Some key_a_view) false = Ok 0 /\
  data_size after_ae_erased_a = data_size after_ae /\
  data_cnt after_ae_erased_a = wrap (data_cnt after_ae - 1).
Proof.
  apply (hashmap_find_after_erase 4 after_ae key_a key_a_view false false []
           after_ae_erased_a []).
  - cbn. lia.
  - split; reflexivity.
  - reflexivity.
Defined.

(** ** Teardown and failed allocations *)


(** X11.  A grow or a shrink whose allocation fails returns -1 and leaves
    every field of the map as it was, and a shrink at capacity 4 or less
    returns 1 without allocating and without changing the map. *)
Theorem resize_allocation_failure fuel q al :
  hashmap_grow fuel q (false :: al) = Ok (-1, q, al) /\
  (4 < data_size q -> hashmap_shrink fuel q (false :: al) = Ok (-1, q, al)) /\
  (data_size q <= 4 -> hashmap_shrink fuel q al = Ok (1, q, al)).
Proof.
  unfold hashmap_grow, hashmap_grow_with, hashmap_shrink, hashmap_shrink_with,
    hashmap_rehash_with.
  repeat split.
  - cbn. now rewrite set_data_same.
  - intros H. destruct (Z.leb_spec (data_size q) 4); [lia|].
    cbn. now rewrite set_data_same.
  - intros H. destruct (Z.leb_spec (data_size q) 4); [reflexivity|lia].
Qed.

(** ** Bookkeeping *)

Lemma occupied_range d : 0 <= occupied d <= Z.of_nat (length d).
Proof. induction d as [|[p|] d IH]; cbn [occupied length]; lia. Qed.

Lemma occupied_store d i s s0 :
  d !! i = Some s0 ->
  occupied (<[i := s]> d) = occupied d - nonnull s0 + nonnull s.
Proof.
  revert i. induction d as [|x d IH]; intros [|i] H; try discriminate.
  - injection H as ->. change (<[0%nat := s]> (s0 :: d)) with (s :: d).
    destruct s, s0; cbn [occupied nonnull]; lia.
  - cbn in H. specialize (IH _ H).
    change (<[S i := s]> (x :: d)) with (x :: <[i := s]> d).
    destruct x; cbn [occupied]; lia.
Qed.

Lemma occupied_empty_slot d i :
  d !! i = Some None -> occupied d < Z.of_nat (length d).
Proof.
  revert i. induction d as [|x d IH]; intros [|i] H; try discriminate.
  - injection H as ->. pose proof (occupied_range d). cbn [occupied length]. lia.
  - cbn in H. specialize (IH _ H). destruct x; cbn [occupied length]; lia.
Qed.

Lemma occupied_full_slot d i p :
  d !! i = Some (Some p) -> 1 <= occupied d.
Proof.
  revert i. induction d as [|x d IH]; intros [|i] H; try discriminate.
  - injection H as ->. pose proof (occupied_range d). cbn [occupied]. lia.
  - cbn in H. specialize (IH _ H). destruct x; cbn [occupied]; lia.
Qed.

Lemma occupied_replicate n : occupied (replicate n None) = 0.
Proof. induction n; cbn; auto. Qed.

Lemma well_counted_fresh q new_size :
  well_counted q -> 0 <= new_size < ui_modulus ->
  well_counted
    (set_data_cnt
       (set_data_size
          (set_data q (Some (replicate (Z.to_nat new_size) None))) new_size) 0).
Proof.
  intros (Hp & Hg & Hs & _ & _) Hn.
  split; [exact Hp|]. split; [exact Hg|]. split; [exact Hs|].
  split; [exact Hn|]. intros d [= <-].
  rewrite length_replicate, occupied_replicate. cbn. lia.
Qed.

Lemma well_counted_store q d pos s s0 c :
  well_counted q -> data q = Some d -> d !! Z.to_nat pos = Some s0 ->
  c = data_cnt q - nonnull s0 + nonnull s ->
  well_counted (set_data_cnt (store_slot q pos s) c).
Proof.
  intros (Hp & Hg & Hs & Hn & Hc) Hd Hl ->.
  destruct (Hc d Hd) as [Hlen Hcnt].
  split; [exact Hp|]. split; [exact Hg|]. split; [exact Hs|].
  split; [exact Hn|]. unfold store_slot. cbn. rewrite Hd. intros d' [= <-].
  rewrite length_insert, (occupied_store d _ s s0 Hl). lia.
Qed.

Lemma hashmap_insert_well_counted fuel : forall q d al r q' al',
  well_counted q ->
  hashmap_insert fuel q d al = Ok (r, q', al') ->
  well_counted q'.
Proof.
  induction fuel as [|fuel IH]; intros q [p|] al r q' al' Hwc H;
    try (now apply ret_Ok in H as [[= _ <-] _]); [discriminate|].
  apply hashmap_insert_Ok in H as (fuel' & q1 & pos & [= <-] & Hg & Hp & Hq').
  assert (well_counted q1) as H1.
  { unfold grown in Hg. destruct (data_cnt q >=? grow_limit q).
    - destruct Hg as (r0 & Hg). unfold hashmap_grow, hashmap_grow_with in Hg.
      apply hashmap_rehash_with_Ok in Hg
        as [(al1 & _ & _ & -> & _)|(al1 & _ & _ & Hl)].
      + now rewrite set_data_same.
      + eapply (rehash_loop_inv well_counted); [| |exact Hl].
        * intros q0 p0 al0 r1 q2 al2. apply IH.
        * apply well_counted_fresh; [exact Hwc|apply wrap_range].
    - destruct Hg as [-> _]. exact Hwc. }
  destruct Hq' as [(p0 & _ & _ & ->)|(Hs & _ & ->)]; [exact H1|].
  unfold slot_at in Hs. destruct (data q1) as [d|] eqn:Hd; [|discriminate].
  destruct (d !! Z.to_nat pos) as [[?|]|] eqn:E; try discriminate.
  apply (well_counted_store q1 d pos (Some p) None); auto.
  destruct H1 as (_ & _ & _ & Hn & Hc). destruct (Hc d Hd) as [Hlen Hcnt].
  pose proof (occupied_empty_slot d _ E).
  replace (data_cnt (store_slot q1 pos (Some p))) with (data_cnt q1)
    by reflexivity.
  pose proof (occupied_range d).
  rewrite wrap_small; cbn [nonnull]; lia.
Qed.

Lemma hashmap_erase_well_counted fuel q k fk al r q' al' :
  well_counted q ->
  hashmap_erase fuel q k fk al = Ok (r, q', al') ->
  well_counted q'.
Proof.
  intros Hwc. unfold hashmap_erase. destruct k as [k|];
    [|now intros [[= _ <-] _]%ret_Ok].
  intros (pos & al1 & [Hp ->]%lift_Ok & H)%bind_Ok.
  apply bind_Ok in H as (s & al2 & [Hs ->]%lift_Ok & H).
  destruct s as [p|]; [|now apply ret_Ok in H as [[= _ <-] _]].
  apply bind_Ok in H as (q3 & al3 & H & [[= _ <-] _]%ret_Ok).
  unfold slot_at in Hs. destruct (data q) as [d|] eqn:Hd; [|discriminate].
  destruct (d !! Z.to_nat pos) as [s|] eqn:El; [|discriminate].
  injection Hs as ->.
  assert (well_counted
            (store_slot (set_data_cnt q (wrap (data_cnt q - 1))) pos None))
    as H2.
  { pose proof Hwc as (_ & _ & _ & Hn & Hc). destruct (Hc d Hd) as [Hlen Hcnt].
    pose proof (occupied_full_slot d _ p El). pose proof (occupied_range d).
    pose proof (well_counted_store q d pos None (Some p)
                  (data_cnt q - 1 + 0) Hwc Hd El eq_refl) as Hw.
    rewrite Z.add_0_r in Hw. rewrite wrap_small by lia. exact Hw. }
  destruct (below_shrink _).
  - apply bind_Ok in H as ([r0 q0] & al4 & H & [-> _]%ret_Ok).
    unfold hashmap_shrink, hashmap_shrink_with in H.
    destruct (Z.leb_spec (data_size
                (store_slot (set_data_cnt q (wrap (data_cnt q - 1))) pos None)) 4)
      as [Hle|Hgt].
    + now apply ret_Ok in H as [[= _ ->] _].
    + apply hashmap_rehash_with_Ok in H
        as [(al1 & _ & _ & -> & _)|(al1 & _ & _ & Hl)].
      * now rewrite set_data_same.
      * eapply (rehash_loop_inv well_counted); [| |exact Hl].
        -- intros qa pa ala ra qb alb. apply hashmap_insert_well_counted.
        -- apply well_counted_fresh; [exact H2|].
           destruct H2 as (_ & _ & _ & Hn & _).
           split; [apply Z.div_pos; lia|].
           apply Z.div_lt_upper_bound; lia.
  - apply ret_Ok in H as [-> _]. exact H2.
Qed.

Lemma reachable_counts q : reachable q -> well_counted q.
Proof.
  induction 1 as [al q al' Hi|fuel q d al r q' al' _ IH Hs
                 |fuel q k fk al r q' al' _ IH Hs].
  - apply hashmap_init_Ok in Hi as (d & -> & Hd).
    split; [reflexivity|]. split; [reflexivity|]. split; [reflexivity|].
    split; [rewrite ui_modulus_eq; cbn; lia|].
    intros d' Hd'. cbn in Hd'.
    destruct Hd as [-> | ->]; [discriminate|]. injection Hd' as <-.
    split; reflexivity.
  - exact (hashmap_insert_well_counted _ _ _ _ _ _ _ IH Hs).
  - exact (hashmap_erase_well_counted _ _ _ _ _ _ _ _ IH Hs).
Qed.

(** X12.  In every state reached from [hashmap_init] by returning calls of
    insert and erase, a non-null backing array has exactly [data_size]
    slots, [data_cnt] is the number of its non-null slots and so lies
    between 0 and the capacity, and the prime and both thresholds are still
    the defaults. *)
Theorem reachable_bookkeeping q d :
  reachable q -> data q = Some d ->
  Z.of_nat (length d) = data_size q /\
  data_cnt q = occupied d /\
  0 <= data_cnt q <= data_size q /\
  prime q = 313 /\ grow_threshold q = 8 # 10 /\ shrink_threshold q = 2 # 10.
Proof.
  intros Hr Hd. destruct (reachable_counts q Hr) as (Hp & Hg & Hs & Hn & Hc).
  destruct (Hc d Hd) as [Hlen Hcnt]. pose proof (occupied_range d).
  repeat split; try assumption; lia.
Qed.

Lemma reachable_bookkeeping_witness :
  Z.of_nat (length [None; Some pair_a; Some pair_b; Some pair_c; Some pair_d;
                    Some pair_e; None; None]) = data_size after_abcde /\
  data_cnt after_abcde
  = occupied [None; Some pair_a; Some pair_b; Some pair_c; Some pair_d;
              Some pair_e; None; None] /\
  0 <= data_cnt after_abcde <= data_size after_abcde /\
  prime after_abcde = 313 /\ grow_threshold after_abcde = 8 # 10 /\
  shrink_threshold after_abcde = 2 # 10.
Proof.
  apply (reachable_bookkeeping after_abcde); [|reflexivity].
  apply (reach_insert 4 full4 (Some pair_e) [] 0 after_abcde []);
    [|reflexivity].
  apply (reach_insert 4 after_abc (Some pair_d) [false] 0 full4 []);
    [|reflexivity].
  apply (reach_insert 4 after_ab (Some pair_c) [] 0 after_abc []);
    [|reflexivity].
  apply (reach_insert 4 after_a (Some pair_b) [] 0 after_ab []);
    [|reflexivity].
  apply (reach_insert 4 fresh (Some pair_a) [] 0 after_a []);
    [|reflexivity].
  apply (reach_init [] fresh []). reflexivity.
Defined.

(** ** Insertion without a resize *)

Lemma hashmap_insert_no_grow fuel q p al r q' al' :
  data_cnt q < grow_limit q ->
  hashmap_insert fuel q (Some p) al = Ok (r, q', al') ->
  exists pos,
    al' = al /\
    hashmap_default_probe_func fuel q
      (hashmap_default_hash_func (Some (pkey p)) (prime q))
      (Some (pkey p)) = Ok pos /\
    ((exists p0, slot_at (data q) pos = Ok (Some p0) /\ r = 1 /\ q' = q) \/
     (slot_at (data q) pos = Ok None /\ r = 0 /\
      q' = set_data_cnt (store_slot q pos (Some p)) (wrap (data_cnt q + 1)))).
Proof.
  intros Hlt (fuel' & q1 & pos & -> & Hg & Hp & Hq')%hashmap_insert_Ok.
  unfold grown in Hg.
  destruct (Z.geb_spec (data_cnt q) (grow_limit q)) as [Hge|_]; [lia|].
  destruct Hg as [-> ->]. eauto.
Qed.

(** X13.  An insertion that needs no resize does not disturb other lookups:
    a key that [hashmap_find] found with a non-null value before is found
    with the same value after [hashmap_insert] returns. *)
Theorem hashmap_insert_keeps_found_keys fuel q p al r q' al' k v fk :
  data_cnt q < grow_limit q ->
  hashmap_insert fuel q (Some p) al = Ok (r, q', al') ->
  hashmap_find fuel q (Some k) fk = Ok v -> v <> 0 ->
  hashmap_find fuel q' (Some k) fk = Ok v.
Proof.
  intros Hlt Hi Hf Hv.
  apply hashmap_insert_no_grow in Hi as (pos & _ & Hp & Hq'); [|assumption].
  destruct Hq' as [(p0 & _ & _ & ->)|(Hs & _ & ->)]; [exact Hf|].
  unfold slot_at in Hs. destruct (data q) as [d|] eqn:Hd; [|discriminate].
  destruct (d !! Z.to_nat pos) as [[?|]|] eqn:E; try discriminate.
  set (q' := set_data_cnt _ _).
  assert (data q' = Some (<[Z.to_nat pos := Some p]> d)) as Hd'
    by (unfold q', store_slot; cbn; now rewrite Hd).
  revert Hf. unfold hashmap_find.
  replace (prime q') with (prime q) by reflexivity.
  unfold hashmap_default_probe_func.
  replace (data_size q') with (data_size q) by reflexivity.
  destruct (data_size q =? 0); [discriminate|].
  intros (pos2 & Hp2 & Hf)%rbind_Ok.
  apply rbind_Ok in Hf as (s2 & Hs2 & Hf).
  unfold slot_at in Hs2. rewrite Hd in Hs2.
  destruct (d !! Z.to_nat pos2) as [s|] eqn:E2; [|discriminate].
  injection Hs2 as ->.
  destruct s2 as [p2|]; [|congruence].
  assert (Z.to_nat pos2 <> Z.to_nat pos) as Hne by congruence.
  rewrite (probe_loop_store_other q q' d pos (Some p) Hd E Hd' eq_refl
             _ _ _ _ _ Hp2 Hne).
  cbn [rbind]. unfold slot_at.
  now rewrite Hd', list_lookup_insert_ne, E2 by congruence.
Qed.

Lemma hashmap_insert_keeps_found_keys_witness :
  hashmap_find 4 after_ab (Some key_a) false = Ok 1.
Proof.
  apply (hashmap_insert_keeps_found_keys 4 after_a pair_b [] 0 after_ab []
           key_a 1 false).
  - vm_compute. reflexivity.
  - reflexivity.
  - reflexivity.
  - lia.
Defined.

(** X14.  Inserting a key that is not stored, into a table whose capacity is
    a power of two, that has an empty slot and whose [data_cnt] is below
    the grow limit, returns 0 without allocating, keeps the capacity,
    raises [data_cnt] by one, and the key is then found with its value. *)
Theorem hashmap_insert_absent_key q d k v e al fuel :
  data q = Some d -> data_size q = 2 ^ e -> 0 <= e < ui_bits ->
  Z.of_nat (length d) = data_size q ->
  (exists i, d !! i = Some None) ->
  (forall i p, d !! i = Some (Some p) ->
               hashmap_key_cmp (Some (pkey p)) (Some k) <> 0) ->
  data_cnt q < grow_limit q ->
  (Z.to_nat (data_size q) <= fuel)%nat ->
  exists q',
    hashmap_insert (S fuel) q (Some (mk_pair k v)) al = Ok (0, q', al) /\
    data_size q' = data_size q /\
    data_cnt q' = wrap (data_cnt q + 1) /\
    hashmap_find (S fuel) q' (Some k) false = Ok v.
Proof.
  intros Hd Hn He Hlen (i & Hi) Habs Hlt Hfuel.
  destruct (probe_stops q d (Some k) e
              (hashmap_default_hash_func (Some k) (prime q)) (S fuel)
              Hd Hn He Hlen)
    as (pos & Hp); [|lia|].
  { exists (Z.of_nat i). split.
    - apply lookup_lt_Some in Hi. lia.
    - unfold slot_hit. now rewrite Nat2Z.id, Hi. }
  assert (d !! Z.to_nat pos = Some None) as El.
  { pose proof (probe_loop_sound q d (Some k) (S fuel)) as Hs.
    unfold hashmap_default_probe_func in Hp.
    destruct (data_size q =? 0) eqn:Ez; [discriminate|].
    destruct (Hs _ _ _ Hd Hp) as [Hh _]. unfold slot_hit in Hh.
    destruct (d !! Z.to_nat pos) as [[p|]|] eqn:El; try discriminate;
      [|reflexivity].
    apply Z.eqb_eq in Hh. now destruct (Habs _ _ El). }
  assert (hashmap_insert (S fuel) q (Some (mk_pair k v)) al
          = Ok (0, set_data_cnt (store_slot q pos (Some (mk_pair k v)))
                     (wrap (data_cnt q + 1)), al)) as Hins.
  { cbn [hashmap_insert pkey].
    destruct (Z.geb_spec (data_cnt q) (grow_limit q)) as [Hge|_]; [lia|].
    unfold bind, lift, ret. cbn [rbind]. rewrite Hp. cbn [rbind].
    unfold slot_at. rewrite Hd, El. reflexivity. }
  set (q' := set_data_cnt _ _) in Hins.
  assert (data q' = Some (<[Z.to_nat pos := Some (mk_pair k v)]> d)) as Hd'
    by (unfold q', store_slot; cbn; now rewrite Hd).
  exists q'. split; [exact Hins|]. split; [reflexivity|]. split; [reflexivity|].
  unfold hashmap_find.
  replace (prime q') with (prime q) by reflexivity.
  unfold hashmap_default_probe_func in *.
  replace (data_size q') with (data_size q) by reflexivity.
  destruct (data_size q =? 0); [discriminate|].
  rewrite (probe_loop_store_hit q q' d pos _ Hd El Hd' eq_refl _ k k _ _ _
             eq_refl eq_refl (conj eq_refl eq_refl) Hp).
  cbn [rbind]. unfold slot_at. rewrite Hd'.
  rewrite list_lookup_insert_eq by (apply lookup_lt_Some in El; assumption).
  reflexivity.
Qed.

Lemma hashmap_insert_absent_key_witness :
  exists q',
    hashmap_insert 5 after_ab (Some (mk_pair key_c 3)) [] = Ok (0, q', []) /\
    data_size q' = data_size after_ab /\
    data_cnt q' = wrap (data_cnt after_ab + 1) /\
    hashmap_find 5 q' (Some key_c) false = Ok 3.
Proof.
  apply (hashmap_insert_absent_key after_ab
           [None; Some pair_a; Some pair_b; None] key_c 3 2 [] 4).
  - reflexivity.
  - reflexivity.
  - unfold ui_bits. lia.
  - reflexivity.
  - exists 0%nat. reflexivity.
  - intros i p Hl.
    destruct i as [|[|[|[|i]]]]; try discriminate; injection Hl as <-;
      vm_compute; discriminate.
  - vm_compute. reflexivity.
  - cbn. lia.
Defined.

(** ** A migration that meets no null slot *)

Lemma occupied_has_empty_slot d :
  occupied d < Z.of_nat (length d) -> exists i, d !! i = Some None.
Proof.
  induction d as [|[p|] d IH]; cbn [occupied length]; intros H.
  - lia.
  - destruct IH as [i Hi]; [lia|]. now exists (S i).
  - now exists 0%nat.
Qed.

(** Placing a pair whose key is not stored, when no resize is due. *)
Lemma hashmap_insert_places q d p e al fuel :
  data q = Some d -> data_size q = 2 ^ e -> 0 <= e < ui_bits ->
  Z.of_nat (length d) = data_size q ->
  (exists i, d !! i = Some None) ->
  (forall i p0, d !! i = Some (Some p0) ->
                hashmap_key_cmp (Some (pkey p0)) (Some (pkey p)) <> 0) ->
  data_cnt q < grow_limit q ->
  (Z.to_nat (data_size q) <= fuel)%nat ->
  exists pos,
    d !! Z.to_nat pos = Some None /\
    hashmap_default_probe_func fuel q
      (hashmap_default_hash_func (Some (pkey p)) (prime q))
      (Some (pkey p)) = Ok pos /\
    hashmap_insert fuel q (Some p) al
    = Ok (0, set_data_cnt (store_slot q pos (Some p)) (wrap (data_cnt q + 1)),
          al).
Proof.
  intros Hd Hn He Hlen (i & Hi) Habs Hlt Hfuel.
  pose proof (pow2_pos e ltac:(lia)) as Hpos.
  destruct fuel as [|fuel]; [lia|].
  destruct (probe_stops q d (Some (pkey p)) e
              (hashmap_default_hash_func (Some (pkey p)) (prime q)) (S fuel)
              Hd Hn He Hlen)
    as (pos & Hp); [|lia|].
  { exists (Z.of_nat i). split.
    - apply lookup_lt_Some in Hi. lia.
    - unfold slot_hit. now rewrite Nat2Z.id, Hi. }
  assert (d !! Z.to_nat pos = Some None) as El.
  { pose proof (probe_loop_sound q d (Some (pkey p)) (S fuel)) as Hs.
    unfold hashmap_default_probe_func in Hp.
    destruct (data_size q =? 0) eqn:Ez; [discriminate|].
    destruct (Hs _ _ _ Hd Hp) as [Hh _]. unfold slot_hit in Hh.
    destruct (d !! Z.to_nat pos) as [[p0|]|] eqn:El; try discriminate;
      [|reflexivity].
    apply Z.eqb_eq in Hh. now destruct (Habs _ _ El). }
  exists pos. split; [exact El|]. split; [exact Hp|].
  cbn [hashmap_insert].
  destruct (Z.geb_spec (data_cnt q) (grow_limit q)) as [Hge|_]; [lia|].
  unfold bind, lift, ret. cbn [rbind]. rewrite Hp. cbn [rbind].
  unfold slot_at. rewrite Hd, El. reflexivity.
Qed.

Section migration.
Variables (old : list slot) (e : Z) (q0 : hashmap) (fuel : nat).
Hypothesis He : 0 <= e < ui_bits.
Hypothesis Hfull : forall i, (i < length old)%nat -> exists p, old !! i = Some (Some p).
Hypothesis Hdistinct : forall i j p1 p2,
  old !! i = Some (Some p1) -> old !! j = Some (Some p2) -> i <> j ->
  hashmap_key_cmp (Some (pkey p1)) (Some (pkey p2)) <> 0.
Hypothesis Hroom : Z.of_nat (length old) <= 2 ^ e.
Hypothesis Hlimit :
  Z.of_nat (length old) <= Qfloor (inject_Z (2 ^ e) * grow_threshold q0).
Hypothesis Hfuel : (Z.to_nat (2 ^ e) <= fuel)%nat.

Lemma migration_step j q p al :
  migration_inv old (2 ^ e) q0 j q ->
  old !! j = Some (Some p) -> value p <> 0 ->
  exists q',
    hashmap_insert fuel q (Some p) al = Ok (0, q', al) /\
    migration_inv old (2 ^ e) q0 (S j) q'.
Proof.
  intros (d & Hd & Hlen & Hn & Hpr & Hg & Hcnt & Hocc & Hloc & Hin & Hout)
         Hj Hv.
  pose proof (lookup_lt_Some _ _ _ Hj) as Hjlt.
  pose proof (occupied_range d) as Hor.
  assert (exists i, d !! i = Some None) as Hex
    by (apply occupied_has_empty_slot; lia).
  assert (forall i p0, d !! i = Some (Some p0) ->
            hashmap_key_cmp (Some (pkey p0)) (Some (pkey p)) <> 0) as Habs.
  { intros i p0 Hl. destruct (Hin i p0 Hl) as (i0 & Hi0 & Ho).
    apply (Hdistinct i0 j); auto. lia. }
  assert (data_cnt q < grow_limit q) as Hlt
    by (unfold grow_limit; rewrite Hn, Hg; lia).
  assert (Z.to_nat (data_size q) <= fuel)%nat as Hf by (now rewrite Hn).
  destruct (hashmap_insert_places q d p e al fuel Hd Hn He ltac:(lia)
              Hex Habs Hlt Hf) as (pos & El & Hp & Hi).
  eexists. split; [exact Hi|].
  exists (<[Z.to_nat pos := Some p]> d).
  pose proof (occupied_store d _ (Some p) None El) as Hst.
  cbn [nonnull] in Hst.
  split; [unfold store_slot; cbn; now rewrite Hd|].
  split; [now rewrite length_insert|].
  split; [exact Hn|]. split; [exact Hpr|]. split; [exact Hg|].
  split.
  { cbn [data_cnt set_data_cnt]. rewrite Hst, wrap_small; [lia|].
    rewrite ui_modulus_eq. unfold ui_bits in He.
    assert (2 ^ e <= 2 ^ 31) by (apply Z.pow_le_mono_r; lia).
    change (2 ^ 31) with 2147483648 in *. lia. }
  split; [lia|].
  split; [eapply locatable_store; eauto|].
  split.
  + intros i p1 Hl.
    destruct (decide (i = Z.to_nat pos)) as [->|Hne].
    * rewrite list_lookup_insert_eq in Hl
        by (apply lookup_lt_Some in El; assumption).
      injection Hl as <-. exists j. split; [lia|exact Hj].
    * rewrite list_lookup_insert_ne in Hl by auto.
      destruct (Hin i p1 Hl) as (i0 & Hi0 & Ho). exists i0. split; [lia|auto].
  + intros i0 p1 Hi0 Ho Hv1.
    destruct (decide (i0 = j)) as [->|Hne].
    * rewrite Hj in Ho. injection Ho as <-. exists (Z.to_nat pos).
      apply list_lookup_insert_eq. apply lookup_lt_Some in El. assumption.
    * destruct (Hout i0 p1 ltac:(lia) Ho Hv1) as (i & Hl). exists i.
      rewrite list_lookup_insert_ne; [exact Hl|]. congruence.
Qed.

Lemma migration_skip j q p :
  migration_inv old (2 ^ e) q0 j q ->
  old !! j = Some (Some p) -> value p = 0 ->
  migration_inv old (2 ^ e) q0 (S j) q.
Proof.
  intros (d & Hd & Hlen & Hn & Hpr & Hg & Hcnt & Hocc & Hloc & Hin & Hout)
         Hj Hv.
  exists d. repeat (split; [assumption || lia|]). split.
  - intros i p1 Hl. destruct (Hin i p1 Hl) as (i0 & Hi0 & Ho).
    exists i0. split; [lia|auto].
  - intros i0 p1 Hi0 Ho Hv1.
    destruct (decide (i0 = j)) as [->|Hne]; [congruence|].
    apply (Hout i0 p1); [lia|auto..].
Qed.

Lemma rehash_loop_migrates al : forall n j q,
  migration_inv old (2 ^ e) q0 j q ->
  (j + n)%nat = length old ->
  exists q',
    rehash_loop (hashmap_insert fuel) (Some old) n (Z.of_nat j) q al
    = Ok (q', al) /\
    migration_inv old (2 ^ e) q0 (length old) q'.
Proof.
  induction n as [|n IH]; intros j q Hinv Hjn.
  - exists q. split; [reflexivity|]. now replace (length old) with j by lia.
  - destruct (Hfull j ltac:(lia)) as (p & Hj).
    cbn [rehash_loop]. unfold bind at 1, lift, slot_at.
    rewrite Nat2Z.id, Hj. cbn [rbind].
    destruct (Z.eqb_spec (value p) 0) as [Hv|Hv]; cbn [negb].
    + replace (Z.of_nat j + 1) with (Z.of_nat (S j)) by lia.
      apply IH; [|lia]. now apply (migration_skip j q p).
    + destruct (migration_step j q p al Hinv Hj Hv) as (q1 & Hi & Hinv1).
      unfold bind. rewrite Hi. cbn [rbind snd].
      replace (Z.of_nat j + 1) with (Z.of_nat (S j)) by lia.
      apply IH; [exact Hinv1|lia].
Qed.
End migration.

Lemma locatable_find q d i p k fk :
  locatable q -> data q = Some d -> d !! i = Some (Some p) ->
  key_eqv (pkey p) k ->
  exists fuel0, forall fuel, (fuel0 <= fuel)%nat ->
    hashmap_find fuel q (Some k) fk = Ok (value p).
Proof.
  intros Hloc Hd Hl Heqv.
  destruct (Hloc d i p Hd Hl) as (fuel0 & pos & Hp & Hi).
  exists fuel0. intros fuel Hfuel.
  apply (hashmap_default_probe_func_mono _ _ _ fuel) in Hp; [|assumption].
  unfold hashmap_find.
  rewrite <- (hashmap_default_hash_func_eqv _ _ _ Heqv).
  unfold hashmap_default_probe_func in *.
  destruct (data_size q =? 0); [discriminate|].
  rewrite <- (probe_loop_eqv _ _ _ _ _ _ Heqv), Hp. cbn [rbind].
  unfold slot_at. now rewrite Hd, Hi, Hl.
Qed.

Lemma rehash_migrates_core fuel q e old al al1 :
  calloc al = Ok (true, al1) ->
  0 <= e < ui_bits ->
  (forall i, (i < length old)%nat -> exists p, old !! i = Some (Some p)) ->
  (forall i j p1 p2,
     old !! i = Some (Some p1) -> old !! j = Some (Some p2) -> i <> j ->
     hashmap_key_cmp (Some (pkey p1)) (Some (pkey p2)) <> 0) ->
  Z.of_nat (length old) <= 2 ^ e ->
  Z.of_nat (length old) <= Qfloor (inject_Z (2 ^ e) * grow_threshold q) ->
  (Z.to_nat (2 ^ e) <= fuel)%nat ->
  exists q',
    hashmap_rehash fuel q (2 ^ e) (Some old) (Z.of_nat (length old)) al
    = Ok (0, q', al1) /\
    data_size q' = 2 ^ e /\
    0 <= data_cnt q' <= Z.of_nat (length old) /\
    forall i p k fk,
      old !! i = Some (Some p) -> value p <> 0 -> key_eqv (pkey p) k ->
      exists fuel0, forall fuel', (fuel0 <= fuel')%nat ->
        hashmap_find fuel' q' (Some k) fk = Ok (value p).
Proof.
  intros Hc He Hfull Hdistinct Hroom Hlimit Hfuel.
  pose proof (pow2_pos e ltac:(lia)) as Hpos.
  set (q3 := set_data_cnt
               (set_data_size
                  (set_data q (Some (replicate (Z.to_nat (2 ^ e)) None)))
                  (2 ^ e)) 0).
  assert (migration_inv old (2 ^ e) q 0 q3) as Hinv0.
  { exists (replicate (Z.to_nat (2 ^ e)) None).
    split; [reflexivity|]. split; [rewrite length_replicate; lia|].
    split; [reflexivity|]. split; [reflexivity|]. split; [reflexivity|].
    rewrite occupied_replicate.
    split; [reflexivity|]. split; [lia|].
    split; [apply locatable_fresh|]. split.
    - intros i p [[=] _]%lookup_replicate.
    - intros i0 p Hi0. lia. }
  destruct (rehash_loop_migrates old e q fuel He Hfull Hdistinct Hroom Hlimit
              Hfuel al1 (length old) 0%nat q3 Hinv0 eq_refl)
    as (q' & Hl & d & Hd & Hlen & Hn & _ & _ & Hcnt & Hocc & Hloc & _ & Hout).
  exists q'. split; [|split; [exact Hn|split]].
  - unfold hashmap_rehash, hashmap_rehash_with, bind at 1. rewrite Hc.
    cbn [rbind negb]. fold q3. rewrite Nat2Z.id. unfold bind.
    change (Z.of_nat 0) with 0 in Hl. rewrite Hl. reflexivity.
  - pose proof (occupied_range d). lia.
  - intros i p k fk Ho Hv Heqv.
    destruct (Hout i p (lookup_lt_Some _ _ _ Ho) Ho Hv) as (i' & Hi').
    exact (locatable_find q' d i' p k fk Hloc Hd Hi' Heqv).
Qed.

(** X15.  A migration that meets no null slot is correct: when the
    allocation succeeds, the old array has no null slot and no two equal
    keys, and the new capacity is a power of two with room for the old
    pairs below its grow limit, [hashmap_rehash] returns 0 with the new
    capacity, and every old pair with a non-null value is found with its
    value under any key equal to its own. *)
Theorem hashmap_rehash_migrates fuel q e old al al1 :
  calloc al = Ok (true, al1) ->
  0 <= e < ui_bits ->
  (forall i, (i < length old)%nat -> exists p, old !! i = Some (Some p)) ->
  (forall i j p1 p2,
     old !! i = Some (Some p1) -> old !! j = Some (Some p2) -> i <> j ->
     hashmap_key_cmp (Some (pkey p1)) (Some (pkey p2)) <> 0) ->
  Z.of_nat (length old) <= 2 ^ e ->
  Z.of_nat (length old) <= Qfloor (inject_Z (2 ^ e) * grow_threshold q) ->
  (Z.to_nat (2 ^ e) <= fuel)%nat ->
  exists q',
    hashmap_rehash fuel q (2 ^ e) (Some old) (Z.of_nat (length old)) al
    = Ok (0, q', al1) /\
    data_size q' = 2 ^ e /\
    0 <= data_cnt q' <= Z.of_nat (length old) /\
    forall i p k fk,
      old !! i = Some (Some p) -> value p <> 0 -> key_eqv (pkey p) k ->
      exists fuel0, forall fuel', (fuel0 <= fuel')%nat ->
        hashmap_find fuel' q' (Some k) fk = Ok (value p).
Proof.
  intros Hc He Hfull Hdistinct Hroom Hlimit Hfuel.
  exact (rehash_migrates_core fuel q e old al al1
           Hc He Hfull Hdistinct Hroom Hlimit Hfuel).
Qed.

Lemma hashmap_rehash_migrates_witness :
  exists q',
    hashmap_rehash 8 full4 (2 ^ 3)
      (Some [Some pair_d; Some pair_a; Some pair_b; Some pair_c])
      (Z.of_nat (length [Some pair_d; Some pair_a; Some pair_b; Some pair_c]))
      []
    = Ok (0, q', []) /\
    data_size q' = 2 ^ 3 /\
    0 <= data_cnt q'
      <= Z.of_nat (length [Some pair_d; Some pair_a; Some pair_b; Some pair_c]) /\
    forall i p k fk,
      [Some pair_d; Some pair_a; Some pair_b; Some pair_c] !! i = Some (Some p) ->
      value p <> 0 -> key_eqv (pkey p) k ->
      exists fuel0, forall fuel', (fuel0 <= fuel')%nat ->
        hashmap_find fuel' q' (Some k) fk = Ok (value p).
Proof.
  apply (hashmap_rehash_migrates 8 full4 3
           [Some pair_d; Some pair_a; Some pair_b; Some pair_c] [] []).
  - reflexivity.
  - unfold ui_bits. lia.
  - intros i Hi. destruct i as [|[|[|[|i]]]]; cbn in Hi; try lia; eauto.
  - intros i j p1 p2 Hi Hj Hne.
    destruct i as [|[|[|[|i]]]]; try discriminate; injection Hi as <-;
      destruct j as [|[|[|[|j]]]]; try discriminate; injection Hj as <-;
      try (now destruct Hne); vm_compute; discriminate.
  - cbn. lia.
  - vm_compute. discriminate.
  - cbn. lia.
Defined.

Lemma grow_limit_default_double n :
  0 <= n -> n <= Qfloor (inject_Z (n * 2) * (8 # 10)).
Proof.
  intros Hn. unfold Qfloor, Qmult, inject_Z. cbn [Qnum Qden].
  change (Z.pos (1 * 10)) with 10.
  apply Z.div_le_lower_bound; lia.
Qed.

(** X16.  [hashmap_grow] of a full table (no null slot, no two equal keys,
    capacity a power of two below [2^31], default grow threshold) whose
    allocation succeeds returns 0, doubles the capacity, and every pair
    with a non-null value is still found with its value. *)
Theorem hashmap_grow_full_table fuel q d e al al1 :
  calloc al = Ok (true, al1) ->
  data q = Some d -> data_size q = 2 ^ e -> 0 <= e < ui_bits - 1 ->
  Z.of_nat (length d) = data_size q ->
  grow_threshold q = HASHMAP_DEFAULT_GROW_THRESHOLD ->
  (forall i, (i < length d)%nat -> exists p, d !! i = Some (Some p)) ->
  (forall i j p1 p2,
     d !! i = Some (Some p1) -> d !! j = Some (Some p2) -> i <> j ->
     hashmap_key_cmp (Some (pkey p1)) (Some (pkey p2)) <> 0) ->
  (Z.to_nat (2 * data_size q) <= fuel)%nat ->
  exists q',
    hashmap_grow fuel q al = Ok (0, q', al1) /\
    data_size q' = 2 * data_size q /\
    forall i p k fk,
      d !! i = Some (Some p) -> value p <> 0 -> key_eqv (pkey p) k ->
      exists fuel0, forall fuel', (fuel0 <= fuel')%nat ->
        hashmap_find fuel' q' (Some k) fk = Ok (value p).
Proof.
  intros Hc Hd Hn He Hlen Hg Hfull Hdistinct Hfuel.
  pose proof (pow2_pos e ltac:(lia)) as Hpos.
  assert (2 ^ (e + 1) = 2 ^ e * 2) as E2
    by (rewrite Z.pow_add_r by lia; reflexivity).
  assert (wrap (data_size q * 2) = 2 ^ (e + 1)) as Ew.
  { rewrite Hn, <- E2. apply wrap_small. unfold ui_modulus. split; [lia|].
    apply Z.pow_lt_mono_r; lia. }
  destruct (rehash_migrates_core fuel q (e + 1) d al al1 Hc ltac:(lia)
              Hfull Hdistinct) as (q' & Hr & Hs & _ & Hfind).
  - lia.
  - rewrite Hg, E2, Hlen, Hn. apply grow_limit_default_double. lia.
  - rewrite E2. replace (2 ^ e * 2) with (2 * data_size q) by lia. exact Hfuel.
  - exists q'. split; [|split].
    + unfold hashmap_grow, hashmap_grow_with. rewrite Ew, Hd, <- Hlen.
      exact Hr.
    + lia.
    + exact Hfind.
Qed.

Lemma hashmap_grow_full_table_witness :
  exists q',
    hashmap_grow 8 full4 [] = Ok (0, q', []) /\
    data_size q' = 2 * data_size full4 /\
    forall i p k fk,
      [Some pair_d; Some pair_a; Some pair_b; Some pair_c] !! i = Some (Some p) ->
      value p <> 0 -> key_eqv (pkey p) k ->
      exists fuel0, forall fuel', (fuel0 <= fuel')%nat ->
        hashmap_find fuel' q' (Some k) fk = Ok (value p).
Proof.
  apply (hashmap_grow_full_table 8 full4
           [Some pair_d; Some pair_a; Some pair_b; Some pair_c] 2 [] []).
  - reflexivity.
  - reflexivity.
  - reflexivity.
  - unfold ui_bits. lia.
  - reflexivity.
  - reflexivity.
  - intros i Hi. destruct i as [|[|[|[|i]]]]; cbn in Hi; try lia; eauto.
  - intros i j p1 p2 Hi Hj Hne.
    destruct i as [|[|[|[|i]]]]; try discriminate; injection Hi as <-;
      destruct j as [|[|[|[|j]]]]; try discriminate; injection Hj as <-;
      try (now destruct Hne); vm_compute; discriminate.
  - cbn. lia.
Defined.

(** ** A full table *)

Lemma probe_loop_full q d k fuel : forall src incri,
  data q = Some d -> 0 < data_size q ->
  Z.of_nat (length d) = data_size q ->
  (forall i, (i < length d)%nat -> slot_hit d k (Z.of_nat i) = false) ->
  0 <= src < data_size q ->
  probe_loop fuel q src incri k = Timeout.
Proof.
  induction fuel as [|fuel IH]; intros src incri Hd Hn Hlen Hmiss Hsrc;
    [reflexivity|].
  rewrite (slot_at_miss q d k src Hd); [|lia|].
  - apply IH; auto. apply Z.mod_pos_bound. lia.
  - rewrite <- (Z2Nat.id src) by lia. apply Hmiss. lia.
Qed.

(** X17.  In a table without an empty slot, [hashmap_find] and
    [hashmap_erase] of a key that no slot holds do not return: the probe
    loop has no slot to stop at, whatever the fuel. *)
Theorem hashmap_full_table_absent_key q d k fk al fuel :
  data q = Some d -> 0 < data_size q ->
  Z.of_nat (length d) = data_size q ->
  (forall i, (i < length d)%nat ->
     exists p, d !! i = Some (Some p) /\
               hashmap_key_cmp (Some (pkey p)) (Some k) <> 0) ->
  hashmap_find fuel q (Some k) fk = Timeout /\
  hashmap_erase fuel q (Some k) fk al = Timeout.
Proof.
  intros Hd Hn Hlen Hfull.
  assert (hashmap_default_probe_func fuel q
            (hashmap_default_hash_func (Some k) (prime q)) (Some k)
          = Timeout) as Hp.
  { unfold hashmap_default_probe_func.
    destruct (Z.eqb_spec (data_size q) 0); [lia|].
    apply (probe_loop_full q d); auto.
    - intros i Hi. destruct (Hfull i Hi) as (p & Hl & Hc).
      unfold slot_hit. rewrite Nat2Z.id, Hl. now apply Z.eqb_neq.
    - apply Z.mod_pos_bound. lia. }
  unfold hashmap_find, hashmap_erase, bind, lift. now rewrite Hp.
Qed.

Lemma hashmap_full_table_absent_key_witness :
  hashmap_find 100 full4 (Some key_e) false = Timeout /\
  hashmap_erase 100 full4 (Some key_e) false [] = Timeout.
Proof.
  apply (hashmap_full_table_absent_key full4
           [Some pair_d; Some pair_a; Some pair_b; Some pair_c]).
  - reflexivity.
  - cbn. lia.
  - reflexivity.
  - intros i Hi.
    destruct i as [|[|[|[|i]]]]; cbn in Hi; try lia;
      (eexists; split; [reflexivity|vm_compute; discriminate]).
Defined.

(** ** Statuses *)


(** ** Pairs and keys from the constructors *)

Lemma find_after_insert_core fuel q p k' fk al q' al' :
  key_eqv (pkey p) k' ->
  hashmap_insert fuel q (Some p) al = Ok (0, q', al') ->
  hashmap_find fuel q' (Some k') fk = Ok (value p).
Proof.
  intros Heqv (fuel' & q1 & pos & -> & _ & Hp
               & [(p0 & _ & [=] & _)|(Hs & _ & ->)])%hashmap_insert_Ok.
  unfold slot_at in Hs. destruct (data q1) as [d|] eqn:Hd; [|discriminate].
  destruct (d !! Z.to_nat pos) as [[?|]|] eqn:E; try discriminate.
  set (q' := set_data_cnt _ _).
  assert (data q' = Some (<[Z.to_nat pos := Some p]> d)) as Hd'
    by (unfold q', store_slot; cbn; now rewrite Hd).
  unfold hashmap_find.
  replace (prime q') with (prime q1) by reflexivity.
  rewrite <- (hashmap_default_hash_func_eqv _ k' _ Heqv).
  unfold hashmap_default_probe_func in *.
  replace (data_size q') with (data_size q1) by reflexivity.
  destruct (data_size q1 =? 0); [discriminate|].
  rewrite (probe_loop_store_hit q1 q' d pos _ Hd E Hd' eq_refl _ _ k' _ _ _
             eq_refl eq_refl Heqv Hp).
  cbn [rbind]. unfold slot_at. rewrite Hd'.
  rewrite list_lookup_insert_eq by (apply lookup_lt_Some in E; assumption).
  reflexivity.
Qed.

(** X19.  A pair made by [hashmap_pair_generate] and inserted with success
    is found through a key made by [hashmap_key_generate] from any buffer
    that agrees with the pair's buffer on the first [key_size] bytes. *)
Theorem generated_pair_is_found buf1 buf2 n v al1 al1' al2 al2' p k
    fuel q al q' al' fk :
  hashmap_pair_generate buf1 n v al1 = Ok (p, al1') ->
  hashmap_key_generate buf2 n al2 = Ok (k, al2') ->
  take (Z.to_nat n) buf1 = take (Z.to_nat n) buf2 ->
  hashmap_insert fuel q (Some p) al = Ok (0, q', al') ->
  hashmap_find fuel q' (Some k) fk = Ok v.
Proof.
  unfold hashmap_pair_generate, hashmap_key_generate.
  intros ([] & a1 & _ & H1)%bind_Ok ([] & a2 & _ & H2)%bind_Ok Hb Hi;
    cbn [negb] in *;
    try (now apply lift_Ok in H1 as [[=] _]);
    try (now apply lift_Ok in H2 as [[=] _]).
  apply ret_Ok in H1 as [-> _]. apply ret_Ok in H2 as [-> _].
  apply (find_after_insert_core fuel q (mk_pair (mk_key buf1 n) v)
           (mk_key buf2 n) fk al q' al');
    [split; [reflexivity|exact Hb]|exact Hi].
Qed.

Lemma generated_pair_is_found_witness :
  hashmap_find 4 after_a (Some key_a_view) false = Ok 1.
Proof.
  apply (generated_pair_is_found [x61] [x61; x7a] 1 1 [] [] [] []
           pair_a key_a_view 4 fresh [] after_a [] false);
    reflexivity.
Defined.
